(** * Spatial mechanics: matrix utility and frame geometry

    A shallow embedding of the two scripts of the repository:

    - [codes/inv_det.py]: inverse and determinant of a 4x4 homogeneous
      transform, of its 3x3 rotation block and of one more 3x3 matrix;
    - [codes/orbital_welding_visualization.py]: the pipe mesh, the world
      frame and the tool frames at the four waypoints.

    Floating-point numbers are read as real numbers (exact arithmetic), so
    [float] is [R], a one-dimensional array is a list of reals and a
    two-dimensional array is a list of rows.  The numeric routines the
    scripts call ([np.linalg.inv], [np.linalg.det], [np.linspace],
    [np.meshgrid]) are written out as what they compute in exact
    arithmetic: [inv] solves [A X = I] and [det] multiplies the pivots, both
    by elimination with partial pivoting and row interchanges, and both
    raise [LinAlgError] as the library does.  The proofs relate them to the
    matrix product, to the cofactor expansion of the determinant and to the
    null vectors of the matrix.

    Where [np.linalg.inv] raises depends on the rounding: the module [F64]
    runs the same elimination on binary64 numbers, and the two are compared
    on a singular and on an ill-conditioned matrix. *)

From Stdlib Require Import PrimFloat.
From Stdlib Require FloatOps SpecFloat.
From Stdlib Require Import String.
From Stdlib Require Import Reals Lra Lia List Arith Bool Permutation RNsatz.
Import ListNotations.

Open Scope R_scope.

(** ** Arrays *)

Abbreviation vec := (list R).
Abbreviation matrix := (list (list R)).

Definition zeros (m : nat) : vec := repeat 0 m.

Definition vscale (c : R) (v : vec) : vec := map (Rmult c) v.

Fixpoint vadd (u v : vec) : vec :=
  match u, v with
  | x :: u', y :: v' => (x + y) :: vadd u' v'
  | _, _ => []
  end.

Fixpoint vsub (u v : vec) : vec :=
  match u, v with
  | x :: u', y :: v' => (x - y) :: vsub u' v'
  | _, _ => []
  end.

(** [lincomb m a X] is the row vector [a] times the matrix [X] whose rows
    have [m] entries: the sum of [a_j * X_j]. *)
Fixpoint lincomb (m : nat) (a : vec) (X : matrix) : vec :=
  match a, X with
  | c :: a', x :: X' => vadd (vscale c x) (lincomb m a' X')
  | _, _ => zeros m
  end.

Definition width (X : matrix) : nat := length (hd [] X).

(** Matrix product, row by row. *)
Definition mmul (A X : matrix) : matrix :=
  map (fun a => lincomb (width X) a X) A.

(** [unit_row n i] is row [i] of the [n]x[n] identity. *)
Definition unit_row (n i : nat) : vec :=
  map (fun j => if Nat.eqb i j then 1 else 0) (seq 0 n).

Definition identity (n : nat) : matrix :=
  map (unit_row n) (seq 0 n).

(** [shape n m X]: [X] is an [n]x[m] array. *)
Definition shape (n m : nat) (X : matrix) : Prop :=
  length X = n /\ Forall (fun r => length r = m) X.

Definition is_square (M : matrix) : bool :=
  forallb (fun r => Nat.eqb (length r) (length M)) M.

(** The slice [M[:r, :c]]. *)
Definition slice (r c : nat) (M : matrix) : matrix :=
  map (firstn c) (firstn r M).

(** ** Errors of the linear-algebra routines *)

Inductive LinAlgError : Type :=
| NotSquare        (* Last 2 dimensions of the array must be square *)
| SingularMatrix.  (* Singular matrix *)

Definition result (A : Type) : Type := (LinAlgError + A)%type.

(** ** Elimination with partial pivoting *)

(** An equation of a linear system: coefficients and right-hand side. *)
Abbreviation row := (list R * list R)%type.

Definition hd0 (v : vec) : R := hd 0 v.

Definition lead (r : row) : R := hd0 (fst r).

(** Index of the first entry of largest absolute value. *)
Fixpoint idamax (l : list R) : nat :=
  match l with
  | [] => 0%nat
  | x :: l' =>
      let j := idamax l' in
      if Rlt_dec (Rabs x) (Rabs (nth j l' 0)) then S j else 0%nat
  end.

(** Row interchange: the row at index [p] comes first and the first row takes
    its place. *)
Definition pivot_split {A : Type} (p : nat) (r0 : A) (rest : list A)
  : A * list A :=
  match p with
  | O => (r0, rest)
  | S q => (nth q rest r0, firstn q rest ++ r0 :: skipn (S q) rest)
  end.

(** One elimination step on a row below the pivot row: subtract the multiple
    of the pivot row that clears the leading coefficient, which is then
    dropped. *)
Definition eliminate (prow r : row) : row :=
  let f := lead r / lead prow in
  (vsub (tl (fst r)) (vscale f (tl (fst prow))),
   vsub (snd r) (vscale f (snd prow))).

(** Factorisation of a system of [n] equations: the pivot rows in order, each
    with the index of the row it was exchanged with, or [None] when a column
    has no nonzero pivot. *)
Fixpoint getrf (n : nat) (rows : list row) : option (list (nat * row)) :=
  match n, rows with
  | S n', r0 :: rest =>
      let p := idamax (map lead rows) in
      let (prow, others) := pivot_split p r0 rest in
      if Req_dec_T (lead prow) 0 then None
      else option_map (cons (p, prow)) (getrf n' (map (eliminate prow) others))
  | _, _ => Some []
  end.

(** Back substitution on the triangular system left by [getrf]. *)
Fixpoint getrs (m : nat) (stairs : list (nat * row)) : matrix :=
  match stairs with
  | [] => []
  | (_, (a, b)) :: rest =>
      let X' := getrs m rest in
      vscale (/ hd0 a) (vsub b (lincomb m (tl a) X')) :: X'
  end.

Definition gesv (A B : matrix) : option matrix :=
  option_map (getrs (width B)) (getrf (length A) (combine A B)).

(** Sign of the row interchanges times the product of the pivots. *)
Fixpoint pivot_product (stairs : list (nat * row)) : R :=
  match stairs with
  | [] => 1
  | (p, (a, _)) :: rest =>
      (if Nat.eqb p 0 then 1 else -1) * hd0 a * pivot_product rest
  end.

(** The number [det] returns: zero when a column has no nonzero pivot. *)
Definition det_value (f : option (list (nat * row))) : R :=
  match f with
  | Some stairs => pivot_product stairs
  | None => 0
  end.

(** ** [np.linalg.inv] and [np.linalg.det] *)

Definition inv (M : matrix) : result matrix :=
  if is_square M then
    match gesv M (identity (length M)) with
    | Some X => inr X
    | None => inl SingularMatrix
    end
  else inl NotSquare.

Definition det (M : matrix) : result R :=
  if is_square M then
    inr (det_value (getrf (length M) (map (fun a => (a, [])) M)))
  else inl NotSquare.

(** ** [np.linalg.inv] in binary64

    The same routine on IEEE binary64 numbers, with the operations in the
    order of the reference implementation of [gesv]: the multipliers are the
    column entries times the reciprocal of the pivot (or divided by it when
    the pivot is below the safe minimum), a row update is a product followed
    by a subtraction, the forward substitution follows the elimination, and
    the back substitution subtracts the unknowns from the last one down and
    then divides by the pivot.  A pivot that compares equal to zero gives
    "Singular matrix". *)
Module F64.

Abbreviation fvec := (list float).
Abbreviation fmatrix := (list (list float)).
Abbreviation frow := (list float * list float)%type.

Definition hd0 (v : fvec) : float := hd 0%float v.

Definition lead (r : frow) : float := hd0 (fst r).

Definition vscale (c : float) (v : fvec) : fvec := map (PrimFloat.mul c) v.

Fixpoint vsub (u v : fvec) : fvec :=
  match u, v with
  | x :: u', y :: v' => (x - y)%float :: vsub u' v'
  | _, _ => []
  end.

Fixpoint idamax (l : fvec) : nat :=
  match l with
  | [] => 0%nat
  | x :: l' =>
      let j := idamax l' in
      if (abs x <? abs (nth j l' 0))%float then S j else 0%nat
  end.

(** The safe minimum: the smallest positive normal number. *)
Definition sfmin : float := 0x1p-1022%float.

Definition multiplier (a pivot : float) : float :=
  if (sfmin <=? abs pivot)%float then (a * (1 / pivot))%float
  else (a / pivot)%float.

Definition eliminate (prow r : frow) : frow :=
  let f := multiplier (lead r) (lead prow) in
  (vsub (tl (fst r)) (vscale f (tl (fst prow))),
   vsub (snd r) (vscale f (snd prow))).

Fixpoint getrf (n : nat) (rows : list frow) : option (list (nat * frow)) :=
  match n, rows with
  | S n', r0 :: rest =>
      let p := idamax (map lead rows) in
      let (prow, others) := pivot_split p r0 rest in
      if (lead prow =? 0)%float then None
      else option_map (cons (p, prow)) (getrf n' (map (eliminate prow) others))
  | _, _ => Some []
  end.

(** One row of the back substitution: the unknowns [X'] already found are
    subtracted from the right-hand side, the last one first. *)
Definition back_row (a b : fvec) (X' : fmatrix) : fvec :=
  let acc :=
    fold_left (fun acc ux => vsub acc (vscale (fst ux) (snd ux)))
      (rev (combine (tl a) X')) b in
  map (fun y => (y / hd0 a)%float) acc.

Fixpoint getrs (stairs : list (nat * frow)) : fmatrix :=
  match stairs with
  | [] => []
  | (_, (a, b)) :: rest => let X' := getrs rest in back_row a b X' :: X'
  end.

Definition identity (n : nat) : fmatrix :=
  map (fun i => map (fun j => if Nat.eqb i j then 1%float else 0%float)
                  (seq 0 n)) (seq 0 n).

Definition is_square (M : fmatrix) : bool :=
  forallb (fun r => Nat.eqb (length r) (length M)) M.

Definition inv (M : fmatrix) : result fmatrix :=
  if is_square M then
    match getrf (length M) (combine M (identity (length M))) with
    | Some stairs => inr (getrs stairs)
    | None => inl SingularMatrix
    end
  else inl NotSquare.

(** The real number a finite binary64 number stands for (0 for the
    infinities and NaN, which stand for none). *)
Definition B2R (x : float) : R :=
  match FloatOps.Prim2SF x with
  | SpecFloat.S754_finite s m e =>
      (if s then -1 else 1) * IZR (Zpos m) * powerRZ 2 e
  | _ => 0
  end.

(** Every entry is at least [bound] in absolute value. *)
Definition all_at_least (bound : float) (M : fmatrix) : bool :=
  forallb (forallb (fun x => (bound <=? abs x)%float)) M.

End F64.

(** A singular matrix and an ill-conditioned matrix of determinant -4, as
    binary64 arrays and as real matrices. *)
Definition singular_f : F64.fmatrix := [[3; 3]; [5; 5]]%float.

Definition singular_r : matrix := [[3; 3]; [5; 5]].

Definition ill_f : F64.fmatrix :=
  [ [9007199254740994; 9007199254740992];
    [9007199254740992; 9007199254740990] ]%float.

Definition ill_r : matrix :=
  [ [9007199254740994; 9007199254740992];
    [9007199254740992; 9007199254740990] ].

(** ** The script [inv_det.py] *)

(** What the script prints: a caption and an array or a number. *)
Inductive output : Type :=
| PrintMatrix (caption : string) (M : matrix)
| PrintNumber (caption : string) (x : R).

(** A script prints as it goes and stops at the first error raised: no
    statement of the scripts catches an exception. *)
Definition script (A : Type) : Type := (list output * result A)%type.

Definition sret {A : Type} (x : A) : script A := ([], inr x).

Definition sbind {A B : Type} (c : script A) (k : A -> script B) : script B :=
  match c with
  | (out, inl e) => (out, inl e)
  | (out, inr x) => let (out', r) := k x in (out ++ out', r)
  end.

Definition call {A : Type} (c : result A) : script A := ([], c).

Definition print (o : output) : script unit := ([o], inr tt).

Declare Scope script_scope.
Delimit Scope script_scope with script.
Notation "x <- c ;; k" := (sbind c (fun x => k))
  (at level 61, c at next level, right associativity) : script_scope.
Notation "c ;;; k" := (sbind c (fun _ => k))
  (at level 61, right associativity) : script_scope.

Definition H2 : matrix :=
  [ [1;  0;  0; -5];
    [0; -1;  0; 10];
    [0;  0; -1;  8];
    [0;  0;  0;  1] ].

(** [R = H2[:3, :3]]; the name [R] is the type of reals here. *)
Definition R_rot : matrix := slice 3 3 H2.

Definition R_new : matrix :=
  [ [ 0; -1;  0];
    [-1;  0;  0];
    [ 0;  0;  1] ].

Definition inv_det_main : script unit :=
  (H2_inv <- call (inv H2) ;;
   det_H2 <- call (det H2) ;;
   print (PrintMatrix "4x4 Matrix H2:" H2) ;;;
   print (PrintMatrix "Inverse of 4x4 H2:" H2_inv) ;;;
   print (PrintNumber "Determinant of 4x4 H2:" det_H2) ;;;
   R_inv <- call (inv R_rot) ;;
   det_R <- call (det R_rot) ;;
   print (PrintMatrix "3x3 Rotation Matrix from H2:" R_rot) ;;;
   print (PrintMatrix "Inverse of 3x3 R:" R_inv) ;;;
   print (PrintNumber "Determinant of 3x3 R:" det_R) ;;;
   det_R_new <- call (det R_new) ;;
   R_new_inv <- call (inv R_new) ;;
   print (PrintMatrix "Additional 3x3 Matrix R_new:" R_new) ;;;
   print (PrintMatrix "Inverse of R_new:" R_new_inv) ;;;
   print (PrintNumber "Determinant of R_new:" det_R_new))%script.

(** The statements of [inv_det_main] with its two matrix literals as
    parameters: [inv_det_main] is [inv_det_script H2 R_new]. *)
Definition inv_det_script (H N : matrix) : script unit :=
  (H_inv <- call (inv H) ;;
   det_H <- call (det H) ;;
   print (PrintMatrix "4x4 Matrix H2:" H) ;;;
   print (PrintMatrix "Inverse of 4x4 H2:" H_inv) ;;;
   print (PrintNumber "Determinant of 4x4 H2:" det_H) ;;;
   R_inv <- call (inv (slice 3 3 H)) ;;
   det_R <- call (det (slice 3 3 H)) ;;
   print (PrintMatrix "3x3 Rotation Matrix from H2:" (slice 3 3 H)) ;;;
   print (PrintMatrix "Inverse of 3x3 R:" R_inv) ;;;
   print (PrintNumber "Determinant of 3x3 R:" det_R) ;;;
   det_N <- call (det N) ;;
   N_inv <- call (inv N) ;;
   print (PrintMatrix "Additional 3x3 Matrix R_new:" N) ;;;
   print (PrintMatrix "Inverse of R_new:" N_inv) ;;;
   print (PrintNumber "Determinant of R_new:" det_N))%script.

(** ** The script [orbital_welding_visualization.py] *)

(** A point or a direction: an array of three numbers. *)
Record vec3 : Type := mk3 { c0 : R; c1 : R; c2 : R }.

Definition v3add (u v : vec3) : vec3 :=
  mk3 (c0 u + c0 v) (c1 u + c1 v) (c2 u + c2 v).

Definition v3sub (u v : vec3) : vec3 :=
  mk3 (c0 u - c0 v) (c1 u - c1 v) (c2 u - c2 v).

(** [v * s] *)
Definition v3scale (v : vec3) (s : R) : vec3 :=
  mk3 (c0 v * s) (c1 v * s) (c2 v * s).

Definition dot3 (u v : vec3) : R :=
  c0 u * c0 v + c1 u * c1 v + c2 u * c2 v.

Definition norm3 (v : vec3) : R := sqrt (dot3 v v).

(** What a label shows: fixed text, or text with the waypoint angle in it. *)
Inductive label : Type :=
| Caption (s : string)
| ToolAxis (axis : string) (theta_deg : R)
| ThetaEq (theta_deg : R).

(** What the axes are asked to draw. *)
Inductive artist : Type :=
| Arrow3D (xyz dxdydz : vec3) (color : string) (lbl : label)
          (linewidth alpha : R)
| Text (pos : vec3) (lbl : label)
| Scatter (pos : vec3)
| Surface (X Y Z : matrix)
| Line (xs ys zs : vec).

Definition axes : Type := list artist.

Definition draw_arrow (ax : axes) (origin direction : vec3) (color : string)
    (lbl : label) (linewidth alpha : R) : axes :=
  let arrow := Arrow3D origin direction color lbl linewidth alpha in
  let text_pos := v3add origin (v3scale direction 1.15) in
  ax ++ [arrow; Text text_pos lbl].

(** [np.linspace(start, stop, num)] *)
Definition set_last (y : vec) (stop : R) : vec := removelast y ++ [stop].

Definition linspace (start stop : R) (num : nat) : vec :=
  let div := (num - 1)%nat in
  let delta := stop - start in
  let y := map INR (seq 0 num) in
  let y :=
    if (0 <? div)%nat then
      let step := delta / INR div in
      if Req_dec_T step 0 then map (fun t => t / INR div * delta) y
      else map (fun t => t * step) y
    else map (fun t => t * delta) y in
  let y := map (fun t => t + start) y in
  if (1 <? num)%nat then set_last y stop else y.

(** [np.meshgrid(xs, ys)]: both grids have a row per entry of [ys] and a
    column per entry of [xs]. *)
Definition meshgrid (xs ys : vec) : matrix * matrix :=
  (map (fun _ => xs) ys, map (fun y => map (fun _ => y) xs) ys).

Definition grid_map (f : R -> R) (G : matrix) : matrix := map (map f) G.

Definition create_cylinder (radius height : R) (num_points : nat)
  : matrix * matrix * matrix :=
  let theta := linspace 0 (2 * PI) num_points in
  let x_pipe := linspace (- height / 2) (height / 2) num_points in
  let (Theta, X_user) := meshgrid theta x_pipe in
  let Y_user := grid_map (fun t => radius * cos t) Theta in
  let Z_user := grid_map (fun t => radius * sin t) Theta in
  let X_mpl := grid_map Ropp X_user in
  let Y_mpl := Z_user in
  let Z_mpl := Y_user in
  (X_mpl, Y_mpl, Z_mpl).

Definition deg2rad (d : R) : R := d * (PI / 180).

Definition user_to_mpl (v : vec3) : vec3 := mk3 (- c0 v) (c2 v) (c1 v).

(** The locals of [plot_tool_frame]. *)
Definition pos_user (theta_deg radius x_offset : R) : vec3 :=
  let theta := deg2rad theta_deg in
  mk3 x_offset (radius * cos theta) (radius * sin theta).

Definition z_tool_user (theta_deg : R) : vec3 :=
  let theta := deg2rad theta_deg in mk3 0 (cos theta) (sin theta).

Definition x_tool_user (theta_deg : R) : vec3 :=
  let theta := deg2rad theta_deg in mk3 0 (- sin theta) (cos theta).

Definition y_tool_user : vec3 := mk3 1 0 0.

Definition pos_mpl (theta_deg radius x_offset : R) : vec3 :=
  user_to_mpl (pos_user theta_deg radius x_offset).

Definition x_tool_mpl (theta_deg scale : R) : vec3 :=
  v3scale (user_to_mpl (x_tool_user theta_deg)) scale.

Definition y_tool_mpl (scale : R) : vec3 :=
  v3scale (user_to_mpl y_tool_user) scale.

Definition z_tool_mpl (theta_deg scale : R) : vec3 :=
  v3scale (user_to_mpl (z_tool_user theta_deg)) scale.

(** [scale] is 40 and [x_offset] is -80 when the caller gives none. *)
Definition plot_tool_frame (ax : axes) (theta_deg radius scale x_offset : R)
  : axes :=
  let pos := pos_mpl theta_deg radius x_offset in
  let ax := draw_arrow ax pos (x_tool_mpl theta_deg scale) "red"
              (ToolAxis "X-tool" theta_deg) 2.5 0.9 in
  let ax := draw_arrow ax pos (y_tool_mpl scale) "green"
              (ToolAxis "Y-tool" theta_deg) 2.5 0.9 in
  let ax := draw_arrow ax pos (z_tool_mpl theta_deg scale) "blue"
              (ToolAxis "Z-tool" theta_deg) 2.5 0.9 in
  let ax := ax ++ [Scatter pos] in
  let label_pos := v3sub pos (v3scale (z_tool_mpl theta_deg scale) 0.3) in
  ax ++ [Text label_pos (ThetaEq theta_deg)].

Definition waypoints : list R := [0; 90; 180; 270].

Definition main : axes :=
  let radius := 100 in
  let length := 250 in
  let '(X, Y, Z) := create_cylinder radius length 30 in
  let ax := [Surface X Y Z] in
  let world_axes_offset := 80 in
  let tool_frames_offset := -80 in
  let origin_mpl := user_to_mpl (mk3 world_axes_offset 0 0) in
  let axis_length := 150 in
  let x_axis_user := mk3 axis_length 0 0 in
  let y_axis_user := mk3 0 axis_length 0 in
  let z_axis_user := mk3 0 0 axis_length in
  let ax := draw_arrow ax origin_mpl (user_to_mpl x_axis_user) "red"
              (Caption "X (Pipe Axis)") 4 1 in
  let ax := draw_arrow ax origin_mpl (user_to_mpl y_axis_user) "green"
              (Caption "Y (Upward)") 4 1 in
  let ax := draw_arrow ax origin_mpl (user_to_mpl z_axis_user) "blue"
              (Caption "Z (Outward)") 4 1 in
  let ax := fold_left
              (fun ax theta => plot_tool_frame ax theta radius 60 tool_frames_offset)
              waypoints ax in
  let circle_theta := linspace 0 (2 * PI) 100 in
  let circle_y_user := map (fun t => radius * cos t) circle_theta in
  let circle_z_user := map (fun t => radius * sin t) circle_theta in
  let circle_x_user := map (fun _ => tool_frames_offset) circle_y_user in
  let circle_x_mpl := map Ropp circle_x_user in
  let circle_y_mpl := circle_z_user in
  let circle_z_mpl := circle_y_user in
  ax ++ [Line circle_x_mpl circle_y_mpl circle_z_mpl].

(** ** Vocabulary of the proofs *)

Definition dot (a c : vec) : R :=
  fold_right Rplus 0 (map (fun p => fst p * snd p) (combine a c)).

(** Column [i] of a matrix. *)
Definition col (i : nat) (X : matrix) : vec := map (fun x => nth i x 0) X.

(** [X] satisfies the equation [r]: the coefficients times [X] give the
    right-hand side; [m] is the number of right-hand sides. *)
Definition sat (m : nat) (X : matrix) (r : row) : Prop :=
  lincomb m (fst r) X = snd r.

(** [X] satisfies the triangular system [stairs]: equation [k] constrains
    the rows of [X] from [k] on. *)
Fixpoint sat_stairs (m : nat) (X : matrix) (stairs : list (nat * row)) : Prop :=
  match stairs with
  | [] => True
  | (_, r) :: rest => sat m X r /\ sat_stairs m (tl X) rest
  end.

(** Every equation has [k] coefficients and [m] right-hand sides. *)
Definition rows_wf (k m : nat) (rows : list row) : Prop :=
  Forall (fun r => length (fst r) = k /\ length (snd r) = m) rows.

(** A triangular system of [n] equations with nonzero pivots. *)
Fixpoint stairs_wf (n m : nat) (stairs : list (nat * row)) : Prop :=
  match n, stairs with
  | O, [] => True
  | S n', (_, r) :: rest =>
      length (fst r) = n /\ length (snd r) = m /\ lead r <> 0 /\
      stairs_wf n' m rest
  | _, _ => False
  end.

(** The pivot rows without their right-hand sides. *)
Definition strip (s : nat * row) : nat * vec := (fst s, fst (snd s)).

(** Matrix times column vector. *)
Definition mvmul (M : matrix) (v : vec) : vec := map (fun a => dot a v) M.

(** [M] sends some nonzero vector to zero. *)
Definition null_vector (n : nat) (M : matrix) : Prop :=
  exists v, length v = n /\ v <> zeros n /\ mvmul M v = zeros n.

(** The determinant by cofactor expansion along the first column: the sum
    over the rows [r] of [+-(first entry of r)] times the determinant of the
    matrix without [r] and without the first column.  [expand D pre post s]
    sums over the rows of [post], with the rows [pre] above them and sign
    [s] for the first. *)
Fixpoint expand (D : matrix -> R) (pre post : matrix) (s : R) : R :=
  match post with
  | [] => 0
  | r :: post' =>
      s * hd0 r * D (map (@tl R) (pre ++ post'))
      + expand D (pre ++ [r]) post' (- s)
  end.

Fixpoint laplace (n : nat) (M : matrix) : R :=
  match n with
  | O => 1
  | S n' => expand (laplace n') [] M 1
  end.

(** A row minus the multiple of the pivot row that clears its first entry. *)
Definition reduce (prow r : vec) : vec :=
  vsub r (vscale (hd0 r / hd0 prow) prow).

(** The unit vector from [centre] to [p]. *)
Definition outward_normal (centre p : vec3) : vec3 :=
  v3scale (v3sub p centre) (/ norm3 (v3sub p centre)).

(** The inverse of [H2], written out. *)
Definition H2_inv_expected : matrix :=
  [ [1;  0;  0;  5];
    [0; -1;  0; 10];
    [0;  0; -1;  8];
    [0;  0;  0;  1] ].

(** The homogeneous transform with rotation block [Rm] and translation [t]:
    each row of [Rm] is followed by its entry of [t], and the last row is
    zero but for a final one. *)
Definition homogeneous (Rm : matrix) (t : vec) : matrix :=
  map (fun p => fst p ++ [snd p]) (combine Rm t) ++ [zeros (length Rm) ++ [1]].

(** The diagonal of a square matrix and the product of a list of numbers. *)
Definition diagonal (M : matrix) : vec :=
  map (fun i => nth i (nth i M []) 0) (seq 0 (length M)).

Definition product (l : vec) : R := fold_right Rmult 1 l.

(** Every entry below the diagonal is zero. *)
Definition upper_triangular (M : matrix) : Prop :=
  forall i j, (j < i)%nat -> nth j (nth i M []) 0 = 0.

Definition cross3 (u v : vec3) : vec3 :=
  mk3 (c1 u * c2 v - c2 u * c1 v)
      (c2 u * c0 v - c0 u * c2 v)
      (c0 u * c1 v - c1 u * c0 v).

(** ** Vectors *)

Lemma length_vscale c v : length (vscale c v) = length v.
Proof. apply length_map. Qed.

Lemma length_vadd u v : length u = length v -> length (vadd u v) = length v.
Proof.
  revert v; induction u as [|x u IH]; intros [|y v]; simpl; try discriminate; auto.
Qed.

Lemma length_vsub u v : length u = length v -> length (vsub u v) = length v.
Proof.
  revert v; induction u as [|x u IH]; intros [|y v]; simpl; try discriminate; auto.
Qed.

Lemma length_zeros m : length (zeros m) = m.
Proof. apply repeat_length. Qed.

Lemma length_lincomb m a X :
  Forall (fun r => length r = m) X -> length (lincomb m a X) = m.
Proof.
  intros HX; revert a; induction HX as [|x X Hx HX IH]; intros [|c a]; simpl;
    try apply length_zeros.
  rewrite length_vadd; rewrite ?length_vscale, ?IH; auto.
Qed.

Lemma nth_vscale i c v : nth i (vscale c v) 0 = c * nth i v 0.
Proof.
  unfold vscale. replace 0 with (c * 0) at 1 by ring. apply map_nth.
Qed.

Lemma nth_vadd i u v :
  length u = length v -> nth i (vadd u v) 0 = nth i u 0 + nth i v 0.
Proof.
  revert i v; induction u as [|x u IH]; intros i [|y v]; simpl; try discriminate.
  - intros _; destruct i; simpl; ring.
  - intros H; destruct i; auto.
Qed.

Lemma nth_vsub i u v :
  length u = length v -> nth i (vsub u v) 0 = nth i u 0 - nth i v 0.
Proof.
  revert i v; induction u as [|x u IH]; intros i [|y v]; simpl; try discriminate.
  - intros _; destruct i; simpl; ring.
  - intros H; destruct i; auto.
Qed.

Lemma nth_zeros i m : nth i (zeros m) 0 = 0.
Proof. unfold zeros. apply nth_repeat. Qed.

Lemma dot_cons x a y c : dot (x :: a) (y :: c) = x * y + dot a c.
Proof. reflexivity. Qed.

Lemma nth_lincomb i m a X :
  Forall (fun r => length r = m) X ->
  nth i (lincomb m a X) 0 = dot a (col i X).
Proof.
  intros HX; revert a; induction HX as [|x X Hx HX IH]; intros [|c a]; simpl;
    try (rewrite nth_zeros; reflexivity).
  rewrite nth_vadd, nth_vscale, IH, dot_cons; auto.
  rewrite length_vscale, length_lincomb; auto.
Qed.

Lemma dot_elim f ar ap c :
  length ar = length ap ->
  dot (vsub ar (vscale f ap)) c = dot ar c - f * dot ap c.
Proof.
  revert ap c; induction ar as [|x ar IH]; intros [|y ap] c; simpl;
    try discriminate.
  - intros _. unfold dot; simpl. ring.
  - intros H. destruct c as [|z c].
    + unfold dot; simpl. ring.
    + rewrite !dot_cons. rewrite IH by auto. ring.
Qed.

Lemma vec_eq_iff u v :
  length u = length v -> (u = v <-> forall i, nth i u 0 = nth i v 0).
Proof.
  intros H; split; [intros ->; auto|].
  intros E. apply (nth_ext u v 0 0 H). intros; apply E.
Qed.

Ltac len :=
  repeat first
    [ rewrite length_vscale
    | rewrite length_zeros
    | rewrite length_lincomb by assumption
    | rewrite length_vadd
    | rewrite length_vsub ];
  try solve [assumption | symmetry; assumption | congruence | lia].

(** ** Pivot search and row interchange *)

Lemma idamax_max l y :
  In y l -> Rabs y <= Rabs (nth (idamax l) l 0).
Proof.
  induction l as [|x l IH]; simpl; [tauto|].
  intros [<-|Hy]; destruct (Rlt_dec (Rabs x) (Rabs (nth (idamax l) l 0)));
    simpl; try lra.
  - specialize (IH Hy). exact IH.
  - specialize (IH Hy). lra.
Qed.

Lemma idamax_le l : (idamax l <= length l - 1)%nat.
Proof.
  induction l as [|x l IH]; simpl; [lia|].
  destruct (Rlt_dec (Rabs x) (Rabs (nth (idamax l) l 0))) as [H|H]; [|lia].
  destruct l; simpl in *; [|lia].
  rewrite Rabs_R0 in H. pose proof (Rabs_pos x). lra.
Qed.

Lemma idamax_zero l y :
  nth (idamax l) l 0 = 0 -> In y l -> y = 0.
Proof.
  intros H Hy. pose proof (idamax_max l y Hy) as Hm.
  rewrite H, Rabs_R0 in Hm.
  destruct (Req_dec_T y 0) as [|Hn]; auto.
  pose proof (Rabs_pos_lt y Hn). lra.
Qed.

Lemma split_nth {A : Type} q (d : A) rest :
  (q < length rest)%nat ->
  rest = firstn q rest ++ nth q rest d :: skipn (S q) rest.
Proof.
  revert rest; induction q as [|q IH]; intros [|x rest] Hq; simpl in *;
    try lia; auto.
  f_equal. apply IH. lia.
Qed.

Lemma pivot_split_perm {A : Type} p (r0 : A) rest prow others :
  (p <= length rest)%nat ->
  pivot_split p r0 rest = (prow, others) ->
  Permutation (r0 :: rest) (prow :: others).
Proof.
  destruct p as [|q]; unfold pivot_split; intros Hp E; inversion E; subst; auto.
  rewrite (split_nth q r0 rest) at 1 by lia.
  set (x := nth q rest r0). set (F := firstn q rest). set (S' := skipn (S q) rest).
  transitivity (r0 :: x :: F ++ S').
  - apply perm_skip. symmetry. apply Permutation_middle.
  - transitivity (x :: r0 :: F ++ S'); [apply perm_swap|].
    apply perm_skip. apply Permutation_middle.
Qed.

Lemma pivot_split_map {A B : Type} (f : A -> B) p r0 rest :
  pivot_split p (f r0) (map f rest) =
  (f (fst (pivot_split p r0 rest)), map f (snd (pivot_split p r0 rest))).
Proof.
  destruct p as [|q]; unfold pivot_split; cbn [fst snd]; auto.
  rewrite map_app, firstn_map, skipn_map. cbn [map].
  f_equal. apply map_nth.
Qed.

Lemma pivot_split_lead p r0 rest :
  lead (fst (pivot_split p r0 rest)) =
  nth p (map lead (r0 :: rest)) 0 \/ (length rest < p)%nat.
Proof.
  destruct p as [|q]; unfold pivot_split; cbn [fst map nth]; auto.
  destruct (Nat.lt_ge_cases q (length rest)) as [H|H]; [left|right; lia].
  rewrite (nth_indep _ 0 (lead r0)) by (rewrite length_map; lia).
  symmetry. apply map_nth.
Qed.

(** ** Elimination keeps the solutions of the system *)

Lemma length_tl_S (l : vec) n : length l = S n -> length (tl l) = n.
Proof. destruct l; simpl; congruence. Qed.

Section Systems.

(** The number of right-hand sides. *)
Variable m : nat.

Lemma sat_pointwise X r :
  Forall (fun x => length x = m) X -> length (snd r) = m ->
  sat m X r <-> forall i, dot (fst r) (col i X) = nth i (snd r) 0.
Proof.
  intros HX Hr. unfold sat. rewrite vec_eq_iff by len.
  split; intros H i; specialize (H i); rewrite nth_lincomb in *; auto.
Qed.

Lemma elim_sat k prow r y0 Y' :
  length (fst prow) = S k -> length (fst r) = S k ->
  length (snd prow) = m -> length (snd r) = m ->
  length y0 = m -> Forall (fun x => length x = m) Y' ->
  lead prow <> 0 ->
  sat m (y0 :: Y') prow ->
  sat m (y0 :: Y') r <-> sat m Y' (eliminate prow r).
Proof.
  destruct prow as [[|ap0 ap] bp]; destruct r as [[|ar0 ar] br];
    cbn [fst snd length]; try discriminate.
  intros Hap Har Hbp Hbr Hy0 HY' Hnz Hp.
  assert (HY : Forall (fun x => length x = m) (y0 :: Y')) by (constructor; auto).
  rewrite sat_pointwise in Hp by auto.
  rewrite !sat_pointwise; auto.
  2:{ unfold eliminate; cbn [snd]. len. }
  unfold eliminate, lead, hd0 in *. cbn [fst snd hd tl col map] in *.
  assert (Hl : length ar = length ap) by lia.
  assert (Hf : ar0 / ap0 * ap0 = ar0) by (field; auto).
  set (f := ar0 / ap0) in *.
  split; intros H i; specialize (H i); specialize (Hp i);
    rewrite ?dot_cons, ?dot_elim, ?nth_vsub, ?nth_vscale in * by len;
    fold (col i Y') in *.
  - rewrite <- Hp, <- H, <- Hf. ring.
  - assert (E : dot ar (col i Y') = nth i br 0 - f * nth i bp 0
                 + f * dot ap (col i Y')) by lra.
    rewrite E, <- Hp, <- Hf. ring.
Qed.

Lemma getrf_sound n : forall rows stairs,
  length rows = n -> rows_wf n m rows ->
  getrf n rows = Some stairs ->
  stairs_wf n m stairs /\
  forall Y, shape n m Y ->
    (Forall (sat m Y) rows <-> sat_stairs m Y stairs).
Proof.
  induction n as [|n IH]; intros rows stairs Hlen Hwf E.
  - destruct rows; [|discriminate]. simpl in E. inversion E; subst.
    split; [exact I|]. intros Y _. simpl. split; auto.
  - destruct rows as [|r0 rest]; [discriminate|].
    cbn [getrf] in E.
    set (p := idamax (map lead (r0 :: rest))) in *.
    destruct (pivot_split p r0 rest) as [prow others] eqn:Hsplit.
    destruct (Req_dec_T (lead prow) 0) as [|Hnz]; [discriminate|].
    destruct (getrf n (map (eliminate prow) others)) as [stairs'|] eqn:Hrec;
      [|discriminate].
    cbn [option_map] in E. inversion E; subst stairs; clear E.
    assert (Hperm : Permutation (r0 :: rest) (prow :: others)).
    { apply (pivot_split_perm p); auto.
      pose proof (idamax_le (map lead (r0 :: rest))) as Hp.
      rewrite length_map in Hp. simpl in *. fold p in Hp. lia. }
    assert (Hwf' : rows_wf (S n) m (prow :: others))
      by (eapply Permutation_Forall; eauto).
    apply Forall_cons_iff in Hwf'. destruct Hwf' as [[Hpa Hpb] Hwo].
    assert (Hlo : length others = n).
    { apply Permutation_length in Hperm. simpl in *. lia. }
    destruct (IH (map (eliminate prow) others) stairs') as [Hsw Hsol]; auto.
    { rewrite length_map; auto. }
    { unfold rows_wf. rewrite Forall_map.
      eapply Forall_impl; [|exact Hwo]. intros r [Hra Hrb].
      unfold eliminate; cbn [fst snd]. split.
      - rewrite length_vsub; rewrite length_vscale;
          rewrite ?(length_tl_S _ n); auto.
      - len. }
    split.
    + cbn [stairs_wf]. auto.
    + intros Y [HYl HYr]. destruct Y as [|y0 Y']; [discriminate|].
      apply Forall_cons_iff in HYr. destruct HYr as [Hy0 HY']. simpl in HYl.
      cbn [sat_stairs tl].
      rewrite <- Hsol by (split; auto; lia).
      rewrite Forall_map.
      transitivity (Forall (sat m (y0 :: Y')) (prow :: others)).
      { split; apply Permutation_Forall; auto. symmetry; auto. }
      rewrite Forall_cons_iff.
      assert (Hstep : sat m (y0 :: Y') prow ->
                forall r, In r others ->
                  (sat m (y0 :: Y') r <-> sat m Y' (eliminate prow r))).
      { intros Hp r Hr. rewrite Forall_forall in Hwo.
        destruct (Hwo r Hr). apply (elim_sat n); auto. }
      rewrite !Forall_forall.
      split; intros [Hp Ho]; split; auto; intros r Hr;
        apply (Hstep Hp r Hr); auto.
Qed.

(** ** Back substitution solves the triangular system *)

Lemma getrs_shape n : forall stairs,
  stairs_wf n m stairs -> shape n m (getrs m stairs).
Proof.
  induction n as [|n IH]; intros [|[p [a b]] rest]; cbn [stairs_wf getrs];
    try tauto.
  - intros _. split; auto.
  - intros (Ha & Hb & Hnz & Hrest). destruct (IH rest Hrest) as [Hl HX].
    cbn [fst snd] in *. split; [simpl; lia|].
    constructor; auto. len.
Qed.

Lemma getrs_unique n : forall stairs,
  stairs_wf n m stairs ->
  forall Y, shape n m Y -> (sat_stairs m Y stairs <-> Y = getrs m stairs).
Proof.
  induction n as [|n IH]; intros [|[p [a b]] rest]; cbn [stairs_wf getrs];
    try tauto.
  - intros _ [|y Y] [Hl _]; [|discriminate]. simpl. tauto.
  - intros (Ha & Hb & Hnz & Hrest) [|y0 Y'] [Hl HY]; [discriminate|].
    destruct (getrs_shape n rest Hrest) as [HXl HX].
    apply Forall_cons_iff in HY. destruct HY as [Hy0 HY'].
    cbn [fst snd sat_stairs tl] in *.
    rewrite (IH rest Hrest Y') by (split; auto; simpl in Hl; lia).
    destruct a as [|a0 a']; [discriminate|].
    unfold lead, hd0 in *. cbn [hd tl fst] in *.
    rewrite sat_pointwise by (cbn [snd]; auto).
    cbn [fst snd col map].
    split.
    + intros [Hs ->]. f_equal. apply vec_eq_iff; [len|].
      intros i. specialize (Hs i). rewrite dot_cons in Hs.
      rewrite nth_vscale, nth_vsub, nth_lincomb by len.
      fold (col i (getrs m rest)) in Hs. rewrite <- Hs. field; auto.
    + intros E. injection E as -> ->. split; auto.
      intros i. rewrite dot_cons, nth_vscale, nth_vsub, nth_lincomb by len.
      fold (col i (getrs m rest)). field; auto.
Qed.

End Systems.

(** ** [gesv] returns the one solution of [A X = B] *)

Lemma sat_combine m (A B : matrix) Y :
  length A = length B ->
  map (fun a => lincomb m a Y) A = B <-> Forall (sat m Y) (combine A B).
Proof.
  revert B; induction A as [|a A IH]; intros [|b B]; simpl; try discriminate.
  - intros _. split; auto.
  - intros Hl. rewrite Forall_cons_iff, <- IH by lia. unfold sat; cbn [fst snd].
    split; [intros E; injection E; auto | intros [-> ->]; auto].
Qed.

Lemma rows_wf_combine k m (A B : matrix) :
  shape (length A) k A -> shape (length A) m B ->
  rows_wf k m (combine A B).
Proof.
  intros [_ HA] [HBl HB]. revert B HBl HB.
  induction HA as [|a A Ha HA IH]; intros [|b B] HBl HB; simpl in *;
    try discriminate; constructor.
  - apply Forall_cons_iff in HB. tauto.
  - apply Forall_cons_iff in HB. apply IH; [lia|tauto].
Qed.

Lemma width_shape n m X : shape (S n) m X -> width X = m.
Proof.
  intros [Hl HX]. destruct X as [|x X]; [discriminate|].
  apply Forall_cons_iff in HX. unfold width; simpl. tauto.
Qed.

Lemma gesv_solves n m (A B X : matrix) :
  shape n n A -> shape n m B -> width B = m ->
  gesv A B = Some X ->
  shape n m X /\
  forall Y, shape n m Y ->
    (map (fun a => lincomb m a Y) A = B <-> Y = X).
Proof.
  intros HA HB Hw. unfold gesv. rewrite Hw.
  destruct (getrf (length A) (combine A B)) as [stairs|] eqn:E; [|discriminate].
  cbn [option_map]. intros [= <-].
  pose proof HA as [HAl _]. pose proof HB as [HBl _].
  rewrite HAl in E.
  destruct (getrf_sound m n (combine A B) stairs) as [Hsw Hsol]; auto.
  - rewrite length_combine. lia.
  - apply rows_wf_combine; rewrite HAl; auto.
  - split; [apply (getrs_shape m n); auto|].
    intros Y HY. rewrite sat_combine by lia.
    rewrite Hsol by auto. apply (getrs_unique m n); auto.
Qed.

(** ** Shapes *)

Lemma length_unit_row n i : length (unit_row n i) = n.
Proof. unfold unit_row. rewrite length_map, length_seq. reflexivity. Qed.

Lemma shape_identity n : shape n n (identity n).
Proof.
  unfold identity; split.
  - rewrite length_map, length_seq. reflexivity.
  - rewrite Forall_map, Forall_forall. intros; apply length_unit_row.
Qed.

Lemma width_identity n : width (identity n) = n.
Proof.
  destruct n; [reflexivity|]. apply (width_shape n). apply shape_identity.
Qed.

Lemma is_square_shape M :
  is_square M = true <-> shape (length M) (length M) M.
Proof.
  unfold is_square, shape. rewrite forallb_forall, Forall_forall.
  split.
  - intros H; split; auto. intros r Hr. apply Nat.eqb_eq; auto.
  - intros [_ H] r Hr. apply Nat.eqb_eq; auto.
Qed.

Lemma mmul_lincomb n (M Y : matrix) :
  length M = n -> shape n n Y ->
  mmul M Y = map (fun a => lincomb n a Y) M.
Proof.
  intros HM HY. destruct n.
  - destruct M; [reflexivity|discriminate].
  - unfold mmul. rewrite (width_shape n (S n)); auto.
Qed.

(** ** The pivots do not depend on the right-hand sides *)

Lemma map_lead rows : map lead rows = map hd0 (map fst rows).
Proof. rewrite map_map. reflexivity. Qed.

Lemma fst_eliminate prow1 prow2 r1 r2 :
  fst prow1 = fst prow2 -> fst r1 = fst r2 ->
  fst (eliminate prow1 r1) = fst (eliminate prow2 r2).
Proof.
  unfold eliminate, lead; cbn [fst]. intros -> ->. reflexivity.
Qed.

Lemma map_fst_eliminate prow1 prow2 : forall others1 others2,
  fst prow1 = fst prow2 -> map fst others1 = map fst others2 ->
  map fst (map (eliminate prow1) others1) =
  map fst (map (eliminate prow2) others2).
Proof.
  induction others1 as [|r1 o1 IH]; intros [|r2 o2] Hp E; simpl in *;
    try discriminate; auto.
  injection E as E1 E2. f_equal; [apply fst_eliminate; auto | apply IH; auto].
Qed.

Lemma getrf_strip n : forall rows1 rows2,
  map fst rows1 = map fst rows2 ->
  option_map (map strip) (getrf n rows1) =
  option_map (map strip) (getrf n rows2).
Proof.
  induction n as [|n IH]; intros rows1 rows2 E; [reflexivity|].
  destruct rows1 as [|r1 rest1], rows2 as [|r2 rest2]; try discriminate;
    [reflexivity|].
  cbn [getrf].
  assert (El : map lead (r1 :: rest1) = map lead (r2 :: rest2))
    by (rewrite !map_lead, E; reflexivity).
  rewrite El. set (p := idamax (map lead (r2 :: rest2))).
  cbn [map] in E. injection E as E0 Er.
  pose proof (pivot_split_map fst p r1 rest1) as S1.
  pose proof (pivot_split_map fst p r2 rest2) as S2.
  rewrite E0, Er in S1. rewrite S1 in S2. injection S2 as Sp So.
  destruct (pivot_split p r1 rest1) as [prow1 others1].
  destruct (pivot_split p r2 rest2) as [prow2 others2].
  cbn [fst snd] in *.
  assert (Hl : lead prow1 = lead prow2) by (unfold lead; rewrite Sp; reflexivity).
  rewrite Hl.
  destruct (Req_dec_T (lead prow2) 0); [reflexivity|].
  specialize (IH (map (eliminate prow1) others1) (map (eliminate prow2) others2)
                 (map_fst_eliminate _ _ _ _ Sp So)).
  destruct (getrf n (map (eliminate prow1) others1)),
           (getrf n (map (eliminate prow2) others2));
    cbn [option_map map] in *; try discriminate; auto.
  injection IH as IH. unfold strip at 1 3; cbn [fst snd]. rewrite Sp, IH.
  reflexivity.
Qed.

Lemma pivot_product_nonzero n : forall rows stairs,
  getrf n rows = Some stairs -> pivot_product stairs <> 0.
Proof.
  induction n as [|n IH]; intros rows stairs E.
  - simpl in E. destruct rows; inversion E; simpl; lra.
  - destruct rows as [|r0 rest]; [inversion E; simpl; lra|].
    cbn [getrf] in E.
    destruct (pivot_split _ r0 rest) as [prow others].
    destruct (Req_dec_T (lead prow) 0) as [|Hnz]; [discriminate|].
    destruct (getrf n (map (eliminate prow) others)) as [stairs'|] eqn:Hrec;
      [|discriminate].
    cbn [option_map] in E. inversion E; subst stairs.
    destruct prow as [a b]. cbn [pivot_product].
    specialize (IH _ _ Hrec). unfold lead in Hnz; cbn [fst] in Hnz.
    apply Rmult_integral_contrapositive_currified; auto.
    apply Rmult_integral_contrapositive_currified; auto.
    destruct (Nat.eqb _ 0); lra.
Qed.

Lemma map_fst_combine (A B : matrix) :
  length A = length B -> map fst (combine A B) = A.
Proof.
  revert B; induction A as [|a A IH]; intros [|b B]; simpl; try discriminate;
    auto.
  intros H. f_equal. apply IH. lia.
Qed.

(** [inv] raises "Singular matrix" exactly on the matrices whose determinant
    is zero. *)
Lemma inv_singular_iff M : inv M = inl SingularMatrix <-> det M = inr 0.
Proof.
  unfold inv, det, gesv.
  destruct (is_square M); [|split; discriminate].
  pose proof (getrf_strip (length M) (combine M (identity (length M)))
                (map (fun a => (a, [])) M)) as E.
  rewrite map_fst_combine, map_map, map_id in E
    by (symmetry; apply shape_identity).
  specialize (E eq_refl).
  destruct (getrf (length M) (combine M (identity (length M)))) as [s1|] eqn:E1;
    destruct (getrf (length M) (map (fun a => (a, [])) M)) as [s2|] eqn:E2;
    cbn [option_map det_value] in *; try discriminate.
  - split; [discriminate|]. intros [= H].
    exfalso. eapply pivot_product_nonzero; eauto.
  - tauto.
Qed.

(** When [inv] returns, its argument is square and the result is the one
    matrix whose product with the argument is the identity. *)
Lemma inv_returns n M X :
  length M = n -> inv M = inr X ->
  shape n n M /\ shape n n X /\
  forall Y, shape n n Y -> (mmul M Y = identity n <-> Y = X).
Proof.
  intros Hn. unfold inv.
  destruct (is_square M) eqn:Hsq; [|discriminate].
  apply is_square_shape in Hsq. rewrite Hn in *.
  destruct (gesv M (identity n)) as [X'|] eqn:E; [|discriminate].
  intros [= ->].
  destruct (gesv_solves n n M (identity n) X) as [HX Hsol]; auto.
  - apply shape_identity.
  - apply width_identity.
  - split; auto. split; auto.
    intros Y HY. rewrite (mmul_lincomb n) by auto. apply Hsol; auto.
Qed.

(** [inv] returns on every square matrix with a nonzero determinant. *)
Lemma inv_total n M :
  shape n n M -> det M <> inr 0 -> exists X, inv M = inr X.
Proof.
  intros HM Hd. rewrite <- inv_singular_iff in Hd.
  destruct HM as [Hl HM]. subst n.
  assert (Hsq : is_square M = true) by (apply is_square_shape; split; auto).
  unfold inv in *. rewrite Hsq in *.
  destruct (gesv M (identity (length M))) as [X|]; [eauto|congruence].
Qed.

(** ** A zero determinant means a nonzero null vector *)

Lemma dot_zeros a n : dot a (zeros n) = 0.
Proof.
  revert n; induction a as [|x a IH]; intros [|n]; try reflexivity.
  unfold zeros; cbn [repeat]. rewrite dot_cons. fold (zeros n).
  rewrite IH. ring.
Qed.

Lemma lead_cons (r : row) n :
  length (fst r) = S n -> fst r = lead r :: tl (fst r).
Proof. unfold lead, hd0. destruct (fst r); simpl; congruence. Qed.

Lemma null_eliminate n prow r v0 v' :
  length (fst prow) = S n -> length (fst r) = S n -> lead prow <> 0 ->
  dot (fst prow) (v0 :: v') = 0 ->
  dot (fst r) (v0 :: v') = 0 <-> dot (fst (eliminate prow r)) v' = 0.
Proof.
  intros Hp Hr Hnz. rewrite (lead_cons prow n Hp), (lead_cons r n Hr).
  unfold eliminate; cbn [fst]. rewrite !dot_cons.
  rewrite dot_elim
    by (rewrite (length_tl_S _ n Hp), (length_tl_S _ n Hr); reflexivity).
  intros E.
  assert (Hf : lead r / lead prow * lead prow = lead r) by (field; auto).
  set (f := lead r / lead prow) in *.
  split; intros H.
  - assert (E' : dot (tl (fst prow)) v' = - (lead prow * v0)) by lra.
    assert (H' : dot (tl (fst r)) v' = - (lead r * v0)) by lra.
    rewrite E', H', <- Hf. ring.
  - assert (E' : dot (tl (fst prow)) v' = - (lead prow * v0)) by lra.
    rewrite E' in H.
    assert (H' : dot (tl (fst r)) v' = - (f * lead prow * v0)) by lra.
    rewrite H', Hf. ring.
Qed.

Lemma getrf_fails_null n : forall rows,
  length rows = n -> Forall (fun r => length (fst r) = n) rows ->
  getrf n rows = None ->
  exists v, length v = n /\ v <> zeros n /\
            forall r, In r rows -> dot (fst r) v = 0.
Proof.
  induction n as [|n IH]; intros rows Hlen Hwf E; [discriminate|].
  destruct rows as [|r0 rest]; [discriminate|].
  cbn [getrf] in E.
  set (p := idamax (map lead (r0 :: rest))) in *.
  assert (Hp : (p <= length rest)%nat).
  { pose proof (idamax_le (map lead (r0 :: rest))) as Hp.
    rewrite length_map in Hp. cbn [length] in Hp. unfold p. lia. }
  pose proof (pivot_split_lead p r0 rest) as Hlead.
  destruct (pivot_split p r0 rest) as [prow others] eqn:Hsplit.
  cbn [fst] in Hlead. destruct Hlead as [Hlead|]; [|lia].
  pose proof (pivot_split_perm p r0 rest prow others Hp Hsplit) as Hperm.
  destruct (Req_dec_T (lead prow) 0) as [Hz|Hnz].
  - exists (1 :: zeros n). split; [simpl; rewrite length_zeros; reflexivity|].
    split; [unfold zeros; simpl; intros [= H]; lra|].
    intros r Hr. rewrite Forall_forall in Hwf.
    rewrite (lead_cons r n (Hwf r Hr)), dot_cons, dot_zeros.
    rewrite (idamax_zero (map lead (r0 :: rest)) (lead r)).
    + ring.
    + fold p. rewrite <- Hlead. exact Hz.
    + apply in_map. exact Hr.
  - assert (Hwf' : Forall (fun r => length (fst r) = S n) (prow :: others))
      by (eapply Permutation_Forall; eauto).
    apply Forall_cons_iff in Hwf'. destruct Hwf' as [Hpa Hwo].
    destruct (getrf n (map (eliminate prow) others)) eqn:Hrec; [discriminate|].
    destruct (IH (map (eliminate prow) others)) as (v' & Hv'l & Hv'nz & Hv');
      auto.
    { rewrite length_map. apply Permutation_length in Hperm. simpl in *. lia. }
    { rewrite Forall_map. eapply Forall_impl; [|exact Hwo]. intros r Hr.
      unfold eliminate; cbn [fst]. rewrite length_vsub; rewrite length_vscale;
        rewrite ?(length_tl_S _ n); auto. }
    set (v0 := - dot (tl (fst prow)) v' / lead prow).
    assert (Hprow : dot (fst prow) (v0 :: v') = 0).
    { rewrite (lead_cons prow n Hpa), dot_cons. unfold v0. field; auto. }
    exists (v0 :: v'). split; [simpl; lia|].
    split; [unfold zeros; simpl; intros [= _ H]; apply Hv'nz; exact H|].
    intros r Hr. apply (Permutation_in _ Hperm) in Hr.
    destruct Hr as [<-|Hr]; [exact Hprow|].
    rewrite Forall_forall in Hwo.
    apply (null_eliminate n prow r v0 v'); auto.
    apply Hv'. apply in_map. exact Hr.
Qed.

Lemma getrf_returns_no_null n : forall rows stairs v,
  length rows = n -> Forall (fun r => length (fst r) = n) rows ->
  getrf n rows = Some stairs ->
  length v = n -> (forall r, In r rows -> dot (fst r) v = 0) ->
  v = zeros n.
Proof.
  induction n as [|n IH]; intros rows stairs v Hlen Hwf E Hv Hnull.
  - destruct v; [reflexivity|discriminate].
  - destruct rows as [|r0 rest]; [discriminate|].
    destruct v as [|v0 v']; [discriminate|].
    cbn [getrf] in E.
    set (p := idamax (map lead (r0 :: rest))) in *.
    assert (Hp : (p <= length rest)%nat).
    { pose proof (idamax_le (map lead (r0 :: rest))) as Hp.
      rewrite length_map in Hp. cbn [length] in Hp. unfold p. lia. }
    destruct (pivot_split p r0 rest) as [prow others] eqn:Hsplit.
    pose proof (pivot_split_perm p r0 rest prow others Hp Hsplit) as Hperm.
    destruct (Req_dec_T (lead prow) 0) as [Hz|Hnz]; [discriminate|].
    destruct (getrf n (map (eliminate prow) others)) as [stairs'|] eqn:Hrec;
      [|discriminate].
    assert (Hwf' : Forall (fun r => length (fst r) = S n) (prow :: others))
      by (eapply Permutation_Forall; eauto).
    apply Forall_cons_iff in Hwf'. destruct Hwf' as [Hpa Hwo].
    assert (Hprow : dot (fst prow) (v0 :: v') = 0).
    { apply Hnull. apply (Permutation_in _ (Permutation_sym Hperm)).
      left; reflexivity. }
    assert (Hv' : v' = zeros n).
    { apply (IH (map (eliminate prow) others) stairs'); auto.
      - rewrite length_map. apply Permutation_length in Hperm. simpl in *. lia.
      - rewrite Forall_map. eapply Forall_impl; [|exact Hwo]. intros r Hr.
        unfold eliminate; cbn [fst]. rewrite length_vsub; rewrite length_vscale;
          rewrite ?(length_tl_S _ n); auto.
      - intros r' Hr'. apply in_map_iff in Hr'. destruct Hr' as (r & <- & Hr).
        rewrite Forall_forall in Hwo.
        apply (null_eliminate n prow r v0 v'); auto.
        apply Hnull. apply (Permutation_in _ (Permutation_sym Hperm)).
        right; exact Hr. }
    subst v'. rewrite (lead_cons prow n Hpa), dot_cons, dot_zeros in Hprow.
    assert (v0 = 0).
    { apply (Rmult_eq_reg_l (lead prow)); auto. lra. }
    subst v0. reflexivity.
Qed.

(** The determinant of a square matrix is zero exactly when the matrix
    sends some nonzero vector to zero. *)
Lemma det_zero_iff_null n M :
  shape n n M ->
  det M = inr 0 <-> null_vector n M.
Proof.
  intros [Hl HM]. unfold det, null_vector, mvmul.
  assert (Hsq : is_square M = true) by (apply is_square_shape; subst n; split; auto).
  rewrite Hsq, Hl.
  set (rows := map (fun a => (a, [])) M).
  assert (Hrl : length rows = n) by (unfold rows; rewrite length_map; exact Hl).
  assert (Hrw : Forall (fun r : row => length (fst r) = n) rows)
    by (unfold rows; rewrite Forall_map; exact HM).
  assert (Hin : forall v, (forall r : row, In r rows -> dot (fst r) v = 0) <->
                          map (fun a => dot a v) M = zeros n).
  { intros v. unfold rows, zeros. subst n. clear.
    induction M as [|a M IH]; cbn [map length repeat In fst].
    - split; auto. intros _ r [].
    - split.
      + intros H. f_equal; [apply (H (a, [])); auto|]. apply IH. auto.
      + intros [= Ha HM] r [<-|Hr]; [exact Ha|]. apply IH; auto. }
  destruct (getrf n rows) as [stairs|] eqn:E; cbn [det_value].
  - split.
    + intros [= H]. exfalso. eapply pivot_product_nonzero; eauto.
    + intros (v & Hv & Hnz & Hnull). exfalso. apply Hnz.
      apply (getrf_returns_no_null n rows stairs); auto. apply Hin; auto.
  - split; [intros _|reflexivity].
    destruct (getrf_fails_null n rows Hrl Hrw E) as (v & Hv & Hnz & Hnull).
    exists v. split; auto. split; auto. apply Hin; auto.
Qed.

(** ** The cofactor expansion: interchanges and row operations *)

Lemma tl_reduce_rows f (a c : vec) :
  tl (vsub a (vscale f c)) = vsub (tl a) (vscale f (tl c)).
Proof.
  destruct a as [|x a], c as [|y c]; try reflexivity.
  simpl. destruct a; reflexivity.
Qed.

Lemma hd0_reduce_rows f (a c : vec) :
  length a = length c ->
  hd0 (vsub a (vscale f c)) = hd0 a - f * hd0 c.
Proof.
  destruct a as [|x a], c as [|y c]; simpl; try discriminate; intros _;
    unfold hd0; simpl; ring.
Qed.

Lemma length_tl_eq (a c : vec) : length a = length c -> length (tl a) = length (tl c).
Proof. destruct a, c; simpl; congruence. Qed.

Section Expand.

Variable n : nat.
Variable D : matrix -> R.

(** [D] changes sign when two neighbouring rows are interchanged, and is
    linear in each row, on matrices of [n] rows. *)
Hypothesis D_swap : forall l1 a b l2,
  length (l1 ++ a :: b :: l2) = n ->
  D (l1 ++ a :: b :: l2) = - D (l1 ++ b :: a :: l2).
Hypothesis D_lin : forall l1 a c l2 f,
  length (l1 ++ a :: l2) = n -> length a = length c ->
  D (l1 ++ vsub a (vscale f c) :: l2) =
  D (l1 ++ a :: l2) - f * D (l1 ++ c :: l2).

Lemma D_swap_tl l1 a b l2 :
  length (l1 ++ a :: b :: l2) = n ->
  D (map (@tl R) (l1 ++ a :: b :: l2)) = - D (map (@tl R) (l1 ++ b :: a :: l2)).
Proof.
  intros Hl. rewrite !map_app. cbn [map]. apply D_swap.
  rewrite length_app in *. simpl in *. rewrite !length_map. exact Hl.
Qed.

Lemma D_lin_tl l1 a c l2 f :
  length (l1 ++ a :: l2) = n -> length a = length c ->
  D (map (@tl R) (l1 ++ vsub a (vscale f c) :: l2)) =
  D (map (@tl R) (l1 ++ a :: l2)) - f * D (map (@tl R) (l1 ++ c :: l2)).
Proof.
  intros Hl Hac. rewrite !map_app. cbn [map]. rewrite tl_reduce_rows.
  apply D_lin; [|apply length_tl_eq; exact Hac].
  rewrite length_app in *. simpl in *. rewrite !length_map. exact Hl.
Qed.

Lemma expand_pre_swap : forall post p1 a b p2 s,
  (length (p1 ++ a :: b :: p2) + length post = S n)%nat ->
  expand D (p1 ++ a :: b :: p2) post s =
  - expand D (p1 ++ b :: a :: p2) post s.
Proof.
  induction post as [|r post IH]; intros p1 a b p2 s Hl; cbn [expand].
  - ring.
  - rewrite <- !app_assoc. cbn [app].
    rewrite (IH p1 a b (p2 ++ [r]) (- s)).
    2:{ rewrite !length_app in *. simpl in *. rewrite length_app. simpl. lia. }
    rewrite (D_swap_tl p1 a b (p2 ++ post)).
    2:{ rewrite !length_app in *. simpl in *. rewrite length_app. lia. }
    ring.
Qed.

Lemma expand_post_swap : forall l1 pre a b l2 s,
  (length pre + length (l1 ++ a :: b :: l2) = S n)%nat ->
  expand D pre (l1 ++ a :: b :: l2) s =
  - expand D pre (l1 ++ b :: a :: l2) s.
Proof.
  induction l1 as [|r l1 IH]; intros pre a b l2 s Hl; cbn [app expand].
  - rewrite <- !app_assoc. cbn [app].
    rewrite (expand_pre_swap l2 pre a b [] (- - s)).
    2:{ rewrite !length_app in *. simpl in *. lia. }
    ring.
  - rewrite (IH (pre ++ [r]) a b l2 (- s)).
    2:{ rewrite !length_app in *. simpl in *. lia. }
    rewrite !(app_assoc pre l1).
    rewrite (D_swap_tl (pre ++ l1) a b l2).
    2:{ rewrite !length_app in *. simpl in *. lia. }
    ring.
Qed.

Lemma expand_pre_lin : forall post p1 a c p2 s f,
  (length (p1 ++ a :: p2) + length post = S n)%nat ->
  length a = length c ->
  expand D (p1 ++ vsub a (vscale f c) :: p2) post s =
  expand D (p1 ++ a :: p2) post s - f * expand D (p1 ++ c :: p2) post s.
Proof.
  induction post as [|r post IH]; intros p1 a c p2 s f Hl Hac; cbn [expand].
  - ring.
  - rewrite <- !app_assoc. cbn [app].
    rewrite (IH p1 a c (p2 ++ [r]) (- s) f); auto.
    2:{ rewrite !length_app in *. simpl in *. rewrite length_app. simpl. lia. }
    rewrite (D_lin_tl p1 a c (p2 ++ post) f); auto.
    2:{ rewrite !length_app in *. simpl in *. rewrite length_app. lia. }
    ring.
Qed.

Lemma expand_post_lin : forall l1 pre a c l2 s f,
  (length pre + length (l1 ++ a :: l2) = S n)%nat ->
  length a = length c ->
  expand D pre (l1 ++ vsub a (vscale f c) :: l2) s =
  expand D pre (l1 ++ a :: l2) s - f * expand D pre (l1 ++ c :: l2) s.
Proof.
  induction l1 as [|r l1 IH]; intros pre a c l2 s f Hl Hac; cbn [app expand].
  - rewrite hd0_reduce_rows by exact Hac.
    rewrite (expand_pre_lin l2 pre a c [] (- s) f); auto.
    2:{ rewrite !length_app in *. simpl in *. lia. }
    ring.
  - rewrite (IH (pre ++ [r]) a c l2 (- s) f); auto.
    2:{ rewrite !length_app in *. simpl in *. lia. }
    rewrite !(app_assoc pre l1).
    rewrite (D_lin_tl (pre ++ l1) a c l2 f); auto.
    2:{ rewrite !length_app in *. simpl in *. lia. }
    ring.
Qed.

Lemma expand_zero_heads : forall post pre s,
  Forall (fun r => hd0 r = 0) post -> expand D pre post s = 0.
Proof.
  induction post as [|r post IH]; intros pre s H; cbn [expand]; [reflexivity|].
  apply Forall_cons_iff in H. destruct H as [Hr H].
  rewrite Hr, IH by exact H. ring.
Qed.

End Expand.

Lemma laplace_swap_lin n :
  (forall l1 a b l2,
     length (l1 ++ a :: b :: l2) = n ->
     laplace n (l1 ++ a :: b :: l2) = - laplace n (l1 ++ b :: a :: l2)) /\
  (forall l1 a c l2 f,
     length (l1 ++ a :: l2) = n -> length a = length c ->
     laplace n (l1 ++ vsub a (vscale f c) :: l2) =
     laplace n (l1 ++ a :: l2) - f * laplace n (l1 ++ c :: l2)).
Proof.
  induction n as [|n [IHs IHl]].
  - split; intros; exfalso; rewrite length_app in *; simpl in *; lia.
  - split; intros; cbn [laplace].
    + apply (expand_post_swap n); auto.
    + apply (expand_post_lin n); auto.
Qed.

Lemma laplace_swap n l1 a b l2 :
  length (l1 ++ a :: b :: l2) = n ->
  laplace n (l1 ++ a :: b :: l2) = - laplace n (l1 ++ b :: a :: l2).
Proof. apply laplace_swap_lin. Qed.

Lemma laplace_lin n l1 a c l2 f :
  length (l1 ++ a :: l2) = n -> length a = length c ->
  laplace n (l1 ++ vsub a (vscale f c) :: l2) =
  laplace n (l1 ++ a :: l2) - f * laplace n (l1 ++ c :: l2).
Proof. apply laplace_swap_lin. Qed.

(** Moving a row to the top costs one sign per row it passes. *)
Lemma laplace_move_front n x : forall l1 l2,
  length (l1 ++ x :: l2) = n ->
  laplace n (l1 ++ x :: l2) = (-1) ^ length l1 * laplace n (x :: l1 ++ l2).
Proof.
  induction l1 as [|y l1 IH] using rev_ind; intros l2 Hl.
  - simpl. ring.
  - rewrite <- app_assoc in Hl. rewrite <- !app_assoc. cbn [app] in *.
    rewrite laplace_swap by exact Hl.
    rewrite IH by (rewrite length_app in *; simpl in *; lia).
    rewrite length_app. cbn [length]. rewrite Nat.add_1_r. cbn [pow]. ring.
Qed.

Lemma laplace_equal_rows n x l1 l2 :
  length (x :: l1 ++ x :: l2) = n -> laplace n (x :: l1 ++ x :: l2) = 0.
Proof.
  intros Hl.
  change (x :: l1 ++ x :: l2) with ((x :: l1) ++ x :: l2) in *.
  rewrite laplace_move_front by exact Hl.
  assert (H : laplace n (x :: (x :: l1) ++ l2) = 0).
  { pose proof (laplace_swap n [] x x (l1 ++ l2)) as H. cbn [app] in H.
    assert (Hl' : length (x :: x :: l1 ++ l2) = n).
    { rewrite length_app in Hl. simpl in *. rewrite length_app. lia. }
    specialize (H Hl'). cbn [app]. lra. }
  rewrite H. ring.
Qed.

(** The row interchange of the pivot search changes the sign, unless the
    first row is the pivot row. *)
Lemma laplace_pivot_split n p (r0 : vec) rest prow others :
  (p <= length rest)%nat -> length (r0 :: rest) = n ->
  pivot_split p r0 rest = (prow, others) ->
  laplace n (r0 :: rest) =
  (if Nat.eqb p 0 then 1 else -1) * laplace n (prow :: others).
Proof.
  destruct p as [|q]; unfold pivot_split; intros Hp Hl E;
    apply pair_equal_spec in E; destruct E as [<- <-]; cbn [Nat.eqb]; [ring|].
  set (x := nth q rest r0). set (F := firstn q rest).
  set (T := skipn (S q) rest).
  assert (Hrest : rest = F ++ x :: T) by (apply split_nth; lia).
  rewrite Hrest in *. clearbody x F T. clear Hrest Hp.
  change (r0 :: F ++ x :: T) with ((r0 :: F) ++ x :: T) in *.
  rewrite laplace_move_front by exact Hl.
  change (x :: F ++ r0 :: T) with ((x :: F) ++ r0 :: T).
  rewrite (laplace_move_front n r0 (x :: F) T)
    by (rewrite length_app in *; simpl in *; lia).
  cbn [app].
  pose proof (laplace_swap n [] r0 x (F ++ T)) as Hs. cbn [app] in Hs.
  rewrite Hs
    by (rewrite length_app in Hl; simpl in *; rewrite length_app; lia).
  cbn [length]. ring.
Qed.

(** Subtracting multiples of the first row from the rows below it keeps the
    value. *)
Lemma laplace_reduce n prow : forall todo done,
  length (prow :: done ++ todo) = n ->
  Forall (fun r => length r = length prow) todo ->
  laplace n (prow :: done ++ map (reduce prow) todo) =
  laplace n (prow :: done ++ todo).
Proof.
  induction todo as [|r todo IH]; intros done Hl Hwf; [reflexivity|].
  apply Forall_cons_iff in Hwf. destruct Hwf as [Hr Hwf].
  cbn [map]. unfold reduce at 1.
  change (prow :: done ++ ?u :: ?l) with ((prow :: done) ++ u :: l).
  rewrite laplace_lin; auto.
  2:{ rewrite length_app in *. simpl in *. rewrite length_app in Hl.
      simpl in Hl. rewrite length_map. lia. }
  cbn [app].
  rewrite (laplace_equal_rows n prow done).
  2:{ simpl in *. rewrite length_app in *. simpl in *. rewrite length_map. lia. }
  replace (done ++ r :: map (reduce prow) todo)
    with ((done ++ [r]) ++ map (reduce prow) todo)
    by (rewrite <- app_assoc; reflexivity).
  rewrite IH; auto.
  2:{ simpl in *. rewrite !length_app in *. simpl in *. lia. }
  rewrite <- app_assoc. cbn [app]. ring.
Qed.

Lemma hd0_reduce prow r :
  length r = length prow -> hd0 prow <> 0 -> hd0 (reduce prow r) = 0.
Proof.
  intros Hl Hnz. unfold reduce. rewrite hd0_reduce_rows by exact Hl.
  field. exact Hnz.
Qed.

Lemma fst_eliminate_reduce prow r :
  fst (eliminate prow r) = tl (reduce (fst prow) (fst r)).
Proof.
  unfold eliminate, reduce, lead; cbn [fst]. rewrite tl_reduce_rows.
  reflexivity.
Qed.

(** The product of the pivots with the sign of the interchanges is the
    cofactor expansion. *)
Lemma getrf_laplace n : forall rows,
  length rows = n -> Forall (fun r => length (fst r) = n) rows ->
  det_value (getrf n rows) = laplace n (map fst rows).
Proof.
  induction n as [|n IH]; intros rows Hlen Hwf.
  - destruct rows; [reflexivity|discriminate].
  - destruct rows as [|r0 rest]; [discriminate|].
    cbn [getrf].
    set (p := idamax (map lead (r0 :: rest))).
    assert (Hp : (p <= length rest)%nat).
    { pose proof (idamax_le (map lead (r0 :: rest))) as Hp.
      rewrite length_map in Hp. cbn [length] in Hp. unfold p. lia. }
    pose proof (pivot_split_lead p r0 rest) as Hlead.
    pose proof (pivot_split_map fst p r0 rest) as Hmap.
    destruct (pivot_split p r0 rest) as [prow others] eqn:Hsplit.
    cbn [fst snd] in *. destruct Hlead as [Hlead|]; [|lia].
    pose proof (pivot_split_perm p r0 rest prow others Hp Hsplit) as Hperm.
    assert (Hwf' : Forall (fun r => length (fst r) = S n) (prow :: others))
      by (eapply Permutation_Forall; eauto).
    apply Forall_cons_iff in Hwf'. destruct Hwf' as [Hpa Hwo].
    assert (Hlo : length others = n).
    { apply Permutation_length in Hperm. simpl in *. lia. }
    cbn [map].
    rewrite (laplace_pivot_split (S n) p (fst r0) (map fst rest)
               (fst prow) (map fst others));
      [ | rewrite length_map; exact Hp
        | simpl; rewrite length_map; simpl in Hlen; exact Hlen
        | exact Hmap ].
    destruct (Req_dec_T (lead prow) 0) as [Hz|Hnz].
    + cbn [det_value laplace].
      rewrite (expand_zero_heads (laplace n)); [ring|].
      change (fst prow :: map fst others) with (map fst (prow :: others)).
      rewrite Forall_map, Forall_forall. intros r Hr.
      change (lead r = 0).
      apply (idamax_zero (map lead (r0 :: rest))).
      * fold p. rewrite <- Hlead. exact Hz.
      * apply in_map. apply (Permutation_in _ (Permutation_sym Hperm)). exact Hr.
    + assert (Hred : map fst (map (eliminate prow) others) =
                     map (@tl R) (map (reduce (fst prow)) (map fst others))).
      { rewrite !map_map. apply map_ext. intros r. apply fst_eliminate_reduce. }
      assert (Hdv : det_value
                (option_map (cons (p, prow))
                   (getrf n (map (eliminate prow) others))) =
              (if Nat.eqb p 0 then 1 else -1) * lead prow *
              det_value (getrf n (map (eliminate prow) others))).
      { destruct (getrf n (map (eliminate prow) others));
          cbn [option_map det_value pivot_product]; [|ring].
        destruct prow as [a b]. reflexivity. }
      rewrite Hdv, IH.
      2:{ rewrite length_map. exact Hlo. }
      2:{ rewrite Forall_map. eapply Forall_impl; [|exact Hwo]. intros r Hr.
          unfold eliminate; cbn [fst]. rewrite length_vsub; rewrite length_vscale;
            rewrite ?(length_tl_S _ n); auto. }
      rewrite Hred.
      pose proof (laplace_reduce (S n) (fst prow) (map fst others) []) as Hr.
      cbn [app] in Hr. rewrite <- Hr.
      2:{ simpl. rewrite length_map. lia. }
      2:{ rewrite Forall_map. eapply Forall_impl; [|exact Hwo].
          intros r Hr'. cbv beta in *. rewrite Hpa. exact Hr'. }
      cbn [laplace expand app].
      rewrite (expand_zero_heads (laplace n)).
      * unfold lead. ring.
      * rewrite Forall_map, Forall_map. eapply Forall_impl; [|exact Hwo].
        intros r Hr'. cbv beta in *.
        apply hd0_reduce; [rewrite Hpa; exact Hr'|exact Hnz].
Qed.

(** [det] returns the determinant of a square matrix, as the cofactor
    expansion defines it. *)
Lemma det_laplace n M : shape n n M -> det M = inr (laplace n M).
Proof.
  intros [Hl HM]. unfold det.
  assert (Hsq : is_square M = true)
    by (apply is_square_shape; subst n; split; auto).
  rewrite Hsq, Hl.
  pose proof (getrf_laplace n (map (fun a => (a, [])) M)) as H.
  rewrite map_map, map_id, length_map, Forall_map in H.
  specialize (H Hl HM). rewrite <- H. reflexivity.
Qed.

(** ** Running the elimination on given matrices *)

Lemma idamax_cons_ge x l j :
  idamax l = j -> Rabs (nth j l 0) <= Rabs x -> idamax (x :: l) = 0%nat.
Proof.
  intros <- H. simpl.
  destruct (Rlt_dec (Rabs x) (Rabs (nth (idamax l) l 0))); [lra|reflexivity].
Qed.

Lemma idamax_cons_lt x l j :
  idamax l = j -> Rabs x < Rabs (nth j l 0) -> idamax (x :: l) = S j.
Proof.
  intros <- H. simpl.
  destruct (Rlt_dec (Rabs x) (Rabs (nth (idamax l) l 0))); [reflexivity|lra].
Qed.

Lemma getrf_step n r0 rest p prow others :
  idamax (map lead (r0 :: rest)) = p ->
  pivot_split p r0 rest = (prow, others) ->
  lead prow <> 0 ->
  getrf (S n) (r0 :: rest) =
  option_map (cons (p, prow)) (getrf n (map (eliminate prow) others)).
Proof.
  intros Hp Hs Hnz. cbn [getrf]. rewrite Hp, Hs.
  destruct (Req_dec_T (lead prow) 0); [contradiction|reflexivity].
Qed.

Ltac solve_abs :=
  cbn [nth]; unfold Rabs; repeat destruct Rcase_abs; lra.

Ltac idamax_tac :=
  lazymatch goal with
  | |- idamax [] = _ => exact (eq_refl 0%nat)
  | |- idamax (_ :: _) = _ =>
      first [ eapply idamax_cons_ge; [idamax_tac | solve_abs]
            | eapply idamax_cons_lt; [idamax_tac | solve_abs] ]
  end.

Ltac getrf_step_tac :=
  erewrite getrf_step;
  [ | cbn [map]; unfold lead, hd0; cbn [hd fst]; idamax_tac
    | unfold pivot_split; cbn [nth firstn skipn app]; reflexivity
    | unfold lead, hd0; cbn [hd fst]; lra ];
  cbn [map]; unfold eliminate, lead, hd0, vscale;
  cbn [map hd tl fst snd vsub].

Lemma det_H2_value : det H2 = inr 1.
Proof.
  unfold det, H2. cbn [is_square forallb length Nat.eqb andb map].
  do 4 getrf_step_tac.
  cbn [getrf option_map det_value pivot_product Nat.eqb]. unfold hd0; cbn [hd].
  f_equal. field.
Qed.

Lemma det_R_rot_value : det R_rot = inr 1.
Proof.
  unfold det, R_rot, slice, H2.
  cbn [firstn map is_square forallb length Nat.eqb andb].
  do 3 getrf_step_tac.
  cbn [getrf option_map det_value pivot_product Nat.eqb]. unfold hd0; cbn [hd].
  f_equal. field.
Qed.

Lemma det_R_new_value : det R_new = inr (-1).
Proof.
  unfold det, R_new. cbn [is_square forallb length Nat.eqb andb map].
  do 3 getrf_step_tac.
  cbn [getrf option_map det_value pivot_product Nat.eqb]. unfold hd0; cbn [hd].
  f_equal. field.
Qed.

Ltac shape_tac :=
  split; [reflexivity | repeat constructor].

Ltac mmul_tac :=
  unfold mmul, width, identity, unit_row;
  cbn [hd length map seq Nat.eqb lincomb];
  unfold vscale, zeros; cbn [map vadd repeat];
  repeat (f_equal; try ring).

(** A square matrix with a nonzero determinant is inverted to the matrix
    that multiplies it to the identity. *)
Lemma inv_eq n M X :
  shape n n M -> det M <> inr 0 -> shape n n X ->
  mmul M X = identity n -> inv M = inr X.
Proof.
  intros HM Hd HX E.
  destruct (inv_total n M HM Hd) as [X' HX'].
  destruct (inv_returns n M X' (proj1 HM) HX') as (_ & _ & Hu).
  rewrite HX'. f_equal. symmetry. apply Hu; auto.
Qed.

Lemma inv_H2_value : inv H2 = inr H2_inv_expected.
Proof.
  apply (inv_eq 4).
  - shape_tac.
  - rewrite det_H2_value. intros [= H]. lra.
  - shape_tac.
  - unfold H2, H2_inv_expected. mmul_tac.
Qed.

Lemma inv_R_rot_value : inv R_rot = inr R_rot.
Proof.
  apply (inv_eq 3).
  - shape_tac.
  - rewrite det_R_rot_value. intros [= H]. lra.
  - shape_tac.
  - unfold R_rot, slice, H2. cbn [firstn map]. mmul_tac.
Qed.

Lemma inv_R_new_value : inv R_new = inr R_new.
Proof.
  apply (inv_eq 3).
  - shape_tac.
  - rewrite det_R_new_value. intros [= H]. lra.
  - shape_tac.
  - unfold R_new. mmul_tac.
Qed.

(** ** [linspace] and [meshgrid] *)

Lemma nth_map_seq (g : nat -> R) n i d :
  (i < n)%nat -> nth i (map g (seq 0 n)) d = g i.
Proof.
  intros Hi. rewrite (nth_indep _ d (g 0%nat))
    by (rewrite length_map, length_seq; exact Hi).
  rewrite map_nth, seq_nth; auto.
Qed.

Lemma length_set_last y stop : y <> [] -> length (set_last y stop) = length y.
Proof.
  intros Hy. unfold set_last. rewrite length_app, removelast_firstn_len.
  rewrite length_firstn. simpl.
  destruct y; [congruence|simpl; lia].
Qed.

Lemma nth_set_last y stop i :
  (i < length y)%nat ->
  nth i (set_last y stop) 0 =
  if Nat.eqb i (length y - 1) then stop else nth i y 0.
Proof.
  intros Hi. unfold set_last. rewrite removelast_firstn_len.
  destruct (Nat.eqb_spec i (length y - 1)) as [E|E].
  - rewrite app_nth2; rewrite length_firstn; try lia.
    replace (i - Nat.min (Nat.pred (length y)) (length y))%nat with 0%nat by lia.
    reflexivity.
  - rewrite app_nth1 by (rewrite length_firstn; lia).
    rewrite nth_firstn.
    destruct (Nat.ltb_spec i (Nat.pred (length y))); [reflexivity|lia].
Qed.

Lemma linspace_samples start stop num :
  (2 <= num)%nat ->
  exists g : nat -> R,
    (forall i, g i = INR i * ((stop - start) / INR (num - 1)) + start) /\
    linspace start stop num = set_last (map g (seq 0 num)) stop.
Proof.
  intros Hn. unfold linspace.
  assert (Hd : INR (num - 1) <> 0) by (apply not_0_INR; lia).
  destruct (Nat.ltb_spec 0 (num - 1)); [|lia].
  destruct (Nat.ltb_spec 1 num); [|lia].
  exists (fun i => INR i * ((stop - start) / INR (num - 1)) + start).
  split; [reflexivity|]. f_equal.
  destruct (Req_dec_T ((stop - start) / INR (num - 1)) 0);
    rewrite !map_map; apply map_ext; intros k; [field; auto|reflexivity].
Qed.

Lemma length_linspace start stop num : length (linspace start stop num) = num.
Proof.
  destruct (le_lt_dec 2 num) as [Hn|Hn].
  - destruct (linspace_samples start stop num Hn) as (g & _ & ->).
    rewrite length_set_last; [rewrite length_map, length_seq; reflexivity|].
    destruct num; [lia|discriminate].
  - unfold linspace.
    destruct (Nat.ltb_spec 1 num); [lia|].
    destruct (0 <? num - 1)%nat; [destruct Req_dec_T|];
      rewrite !length_map, length_seq; reflexivity.
Qed.

Lemma nth_linspace start stop num i :
  (2 <= num)%nat -> (i < num)%nat ->
  nth i (linspace start stop num) 0 =
  start + INR i * ((stop - start) / INR (num - 1)).
Proof.
  intros Hn Hi.
  destruct (linspace_samples start stop num Hn) as (g & Hg & ->).
  rewrite nth_set_last by (rewrite length_map, length_seq; exact Hi).
  rewrite length_map, length_seq.
  destruct (Nat.eqb_spec i (num - 1)) as [->|_].
  - field. apply not_0_INR; lia.
  - rewrite nth_map_seq, Hg by auto. ring.
Qed.

Lemma nth_map_row {A : Type} (f : A -> list R) (l : list A) i d :
  (i < length l)%nat -> nth i (map f l) [] = f (nth i l d).
Proof.
  intros Hi. rewrite (nth_indep _ [] (f d)) by (rewrite length_map; exact Hi).
  apply map_nth.
Qed.

Lemma nth_map_entry (f : R -> R) (l : list R) i :
  (i < length l)%nat -> nth i (map f l) 0 = f (nth i l 0).
Proof.
  intros Hi. rewrite (nth_indep _ 0 (f 0)) by (rewrite length_map; exact Hi).
  apply map_nth.
Qed.

Lemma shape_grid_map f n m G : shape n m G -> shape n m (grid_map f G).
Proof.
  intros [Hl HG]. unfold grid_map; split; [rewrite length_map; auto|].
  rewrite Forall_map. eapply Forall_impl; [|exact HG].
  intros r Hr. simpl. rewrite length_map. auto.
Qed.

Lemma shape_meshgrid xs ys :
  shape (length ys) (length xs) (fst (meshgrid xs ys)) /\
  shape (length ys) (length xs) (snd (meshgrid xs ys)).
Proof.
  unfold meshgrid, shape; cbn [fst snd]. rewrite !length_map, !Forall_map.
  repeat split; auto; apply Forall_forall; intros; rewrite ?length_map; auto.
Qed.

Lemma nth_grid_map f G i j :
  (i < length G)%nat -> (j < length (nth i G []))%nat ->
  nth j (nth i (grid_map f G) []) 0 = f (nth j (nth i G []) 0).
Proof.
  intros Hi Hj. unfold grid_map.
  rewrite (nth_map_row _ _ _ []) by auto. apply nth_map_entry; auto.
Qed.

Lemma nth_meshgrid xs ys i j :
  (i < length ys)%nat -> (j < length xs)%nat ->
  nth i (fst (meshgrid xs ys)) [] = xs /\
  nth j (nth i (snd (meshgrid xs ys)) []) 0 = nth i ys 0.
Proof.
  intros Hi Hj. unfold meshgrid; cbn [fst snd].
  rewrite !(nth_map_row _ _ _ 0) by auto. split; [reflexivity|].
  rewrite (nth_indep _ 0 ((fun _ => nth i ys 0) 0))
    by (rewrite length_map; exact Hj).
  rewrite (map_nth (fun _ : R => nth i ys 0) xs 0 j). reflexivity.
Qed.

(** ** The remap and the tool frame *)

Lemma dot3_user_to_mpl u v : dot3 (user_to_mpl u) (user_to_mpl v) = dot3 u v.
Proof. unfold dot3, user_to_mpl; simpl. ring. Qed.

Lemma user_to_mpl_scale v s :
  user_to_mpl (v3scale v s) = v3scale (user_to_mpl v) s.
Proof. unfold user_to_mpl, v3scale; simpl. f_equal; ring. Qed.

Lemma dot3_scale u v s :
  dot3 (v3scale u s) (v3scale v s) = s * s * dot3 u v.
Proof. unfold dot3, v3scale; simpl. ring. Qed.

Lemma norm3_scale v s : norm3 v = 1 -> norm3 (v3scale v s) = Rabs s.
Proof.
  unfold norm3. intros H. rewrite dot3_scale.
  assert (Hd : 0 <= dot3 v v) by (unfold dot3; nra).
  rewrite sqrt_mult by nra. rewrite H, Rmult_1_r.
  apply sqrt_Rsqr_abs.
Qed.

Lemma dot3_x_tool theta_deg :
  dot3 (x_tool_user theta_deg) (x_tool_user theta_deg) = 1.
Proof.
  unfold dot3, x_tool_user; simpl.
  pose proof (sin2_cos2 (deg2rad theta_deg)) as H. unfold Rsqr in H. lra.
Qed.

Lemma dot3_z_tool theta_deg :
  dot3 (z_tool_user theta_deg) (z_tool_user theta_deg) = 1.
Proof.
  unfold dot3, z_tool_user; simpl.
  pose proof (sin2_cos2 (deg2rad theta_deg)) as H. unfold Rsqr in H. lra.
Qed.

Lemma dot3_y_tool : dot3 y_tool_user y_tool_user = 1.
Proof. unfold dot3, y_tool_user; simpl. ring. Qed.

Lemma norm3_x_tool theta_deg : norm3 (x_tool_user theta_deg) = 1.
Proof. unfold norm3. rewrite dot3_x_tool. apply sqrt_1. Qed.

Lemma norm3_y_tool : norm3 y_tool_user = 1.
Proof. unfold norm3. rewrite dot3_y_tool. apply sqrt_1. Qed.

Lemma norm3_z_tool theta_deg : norm3 (z_tool_user theta_deg) = 1.
Proof. unfold norm3. rewrite dot3_z_tool. apply sqrt_1. Qed.

Lemma norm3_user_to_mpl v : norm3 (user_to_mpl v) = norm3 v.
Proof. unfold norm3. rewrite dot3_user_to_mpl. reflexivity. Qed.

Lemma tool_axes_orthogonal theta_deg :
  dot3 (x_tool_user theta_deg) y_tool_user = 0 /\
  dot3 (y_tool_user) (z_tool_user theta_deg) = 0 /\
  dot3 (x_tool_user theta_deg) (z_tool_user theta_deg) = 0.
Proof. unfold dot3, x_tool_user, y_tool_user, z_tool_user; simpl. lra. Qed.

(** ** Exact arithmetic and binary64 at the singular boundary *)

Lemma inv_det_main_script : inv_det_main = inv_det_script H2 R_new.
Proof. reflexivity. Qed.

Lemma script_stops_at_inv H N e :
  inv H = inl e -> inv_det_script H N = ([], inl e).
Proof. intros E. unfold inv_det_script, call, sbind. rewrite E. reflexivity. Qed.

Lemma script_stops_at_block_inv H N H_inv d e :
  inv H = inr H_inv -> det H = inr d -> inv (slice 3 3 H) = inl e ->
  inv_det_script H N =
  ([ PrintMatrix "4x4 Matrix H2:" H;
     PrintMatrix "Inverse of 4x4 H2:" H_inv;
     PrintNumber "Determinant of 4x4 H2:" d ], inl e).
Proof.
  intros E1 E2 E3. unfold inv_det_script, call, print, sbind.
  rewrite E1, E2, E3. reflexivity.
Qed.

Lemma F64_inv_singular_iff Mf :
  F64.inv Mf = inl SingularMatrix <->
  F64.is_square Mf = true /\
  F64.getrf (length Mf) (combine Mf (F64.identity (length Mf))) = None.
Proof.
  unfold F64.inv. destruct (F64.is_square Mf).
  - destruct (F64.getrf _ _); split; try discriminate; auto.
    intros [_ E]; discriminate.
  - split; [discriminate|]. intros [E _]; discriminate.
Qed.

Lemma B2R_value x s m e :
  FloatOps.Prim2SF x = SpecFloat.S754_finite s m e ->
  F64.B2R x = (if s then -1 else 1) * IZR (Zpos m) * powerRZ 2 e.
Proof. intros E. unfold F64.B2R. rewrite E. reflexivity. Qed.

Lemma B2R_singular_f : map (map F64.B2R) singular_f = singular_r.
Proof.
  unfold singular_f, singular_r. cbn [map].
  rewrite (B2R_value 3 false 6755399441055744 (-51))
    by (vm_compute; reflexivity).
  rewrite (B2R_value 5 false 5629499534213120 (-50))
    by (vm_compute; reflexivity).
  simpl powerRZ. repeat f_equal; lra.
Qed.

Lemma B2R_ill_f : map (map F64.B2R) ill_f = ill_r.
Proof.
  unfold ill_f, ill_r. cbn [map].
  rewrite (B2R_value 9007199254740994 false 4503599627370497 1)
    by (vm_compute; reflexivity).
  rewrite (B2R_value 9007199254740992 false 4503599627370496 1)
    by (vm_compute; reflexivity).
  rewrite (B2R_value 9007199254740990 false 9007199254740990 0)
    by (vm_compute; reflexivity).
  simpl powerRZ. repeat f_equal; lra.
Qed.

Lemma det_singular_r : det singular_r = inr 0.
Proof.
  rewrite (det_laplace 2) by shape_tac. f_equal.
  unfold singular_r. cbn [laplace expand map tl app]. unfold hd0. cbn [hd].
  ring.
Qed.

Lemma det_ill_r : det ill_r = inr (-4).
Proof.
  rewrite (det_laplace 2) by shape_tac. f_equal.
  unfold ill_r. cbn [laplace expand map tl app]. unfold hd0. cbn [hd].
  lra.
Qed.

(** In binary64 the second pivot of the singular matrix is [-2^-51], not
    zero: [inv] returns, and every entry it returns is above [1e15]. *)
Lemma F64_inv_singular_f :
  exists X, F64.inv singular_f = inr X /\ F64.all_at_least 1e15 X = true.
Proof. eexists. split; vm_compute; reflexivity. Qed.

(** In binary64 the second pivot of the ill-conditioned matrix is zero. *)
Lemma F64_inv_ill_f : F64.inv ill_f = inl SingularMatrix.
Proof. vm_compute. reflexivity. Qed.

Lemma outward_normal_radial theta_deg radius x_offset :
  radius <> 0 ->
  outward_normal (mk3 x_offset 0 0) (pos_user theta_deg radius x_offset) =
  v3scale (z_tool_user theta_deg) (radius / Rabs radius).
Proof.
  intros Hr.
  assert (Hsub : v3sub (pos_user theta_deg radius x_offset) (mk3 x_offset 0 0)
                 = v3scale (z_tool_user theta_deg) radius).
  { unfold v3sub, v3scale, pos_user, z_tool_user; simpl. f_equal; ring. }
  unfold outward_normal. rewrite Hsub.
  rewrite norm3_scale by apply norm3_z_tool.
  unfold v3scale; simpl. f_equal; unfold Rdiv; ring.
Qed.

(** ** The properties of the specification *)



(** C2, as the code has it.  The determinant of [H2] equals the determinant
    of its rotation block, and both are 1. *)
Theorem det_H2_eq_det_R :
  det H2 = det R_rot /\ det H2 = inr 1 /\ det R_rot = inr 1.
Proof.
  rewrite det_H2_value, det_R_rot_value. repeat split.
Qed.

(** C2, as the specification has it, fails: the two determinants are not
    -1. *)
Lemma det_H2_not_minus_one :
  ~ (det H2 = det R_rot /\ det H2 = inr (-1) /\ det R_rot = inr (-1)).
Proof.
  rewrite det_H2_value. intros (_ & H & _). injection H as H. lra.
Qed.

(** C5.  The rotation block [R = H2[:3, :3]] is its own inverse and its
    determinant is [1 * (-1) * (-1) = 1]. *)
Theorem R_self_inverse :
  R_rot = [[1; 0; 0]; [0; -1; 0]; [0; 0; -1]] /\
  inv R_rot = inr R_rot /\
  det R_rot = inr (1 * (-1) * (-1)) /\ 1 * (-1) * (-1) = 1.
Proof.
  split; [reflexivity|]. split; [apply inv_R_rot_value|].
  rewrite det_R_rot_value. split; [f_equal|]; ring.
Qed.

(** C6.  [R_new] times its inverse is the 3x3 identity, and the
    determinant of [R_new] is -1. *)
Theorem R_new_inverse_and_det :
  (exists R_new_inv, inv R_new = inr R_new_inv /\
                     mmul R_new R_new_inv = identity 3) /\
  det R_new = inr (-1).
Proof.
  split; [|apply det_R_new_value].
  exists R_new. split; [apply inv_R_new_value|].
  unfold R_new. mmul_tac.
Qed.




(** C3.  At every waypoint angle (so at every angle from 0 to 360 degrees)
    the three tool axes are pairwise orthogonal and of length one. *)
Theorem tool_axes_orthonormal (theta_deg : R) :
  let theta := deg2rad theta_deg in
  let x_tool := x_tool_user theta_deg in
  let y_tool := y_tool_user in
  let z_tool := z_tool_user theta_deg in
  x_tool = mk3 0 (- sin theta) (cos theta) /\
  y_tool = mk3 1 0 0 /\
  z_tool = mk3 0 (cos theta) (sin theta) /\
  dot3 x_tool y_tool = 0 /\ dot3 y_tool z_tool = 0 /\ dot3 x_tool z_tool = 0 /\
  norm3 x_tool = 1 /\ norm3 y_tool = 1 /\ norm3 z_tool = 1.
Proof.
  cbv zeta. destruct (tool_axes_orthogonal theta_deg) as (Hxy & Hyz & Hxz).
  repeat split; auto using norm3_x_tool, norm3_y_tool, norm3_z_tool.
Qed.

(** C4.  The remap sends (x, y, z) to (-x, z, y), and applying it twice
    gives back the vector it started from. *)
Theorem user_to_mpl_involutive :
  (forall x y z, user_to_mpl (mk3 x y z) = mk3 (- x) z y) /\
  (forall v, user_to_mpl (user_to_mpl v) = v).
Proof.
  split; [reflexivity|].
  intros [x y z]. unfold user_to_mpl; simpl. f_equal. ring.
Qed.

(** C7.  For a positive radius, a positive length and at least two samples,
    the three grids of the pipe mesh have [num_points] rows and columns; the
    longitudinal samples run from [-height/2] to [height/2] and the angles
    from 0 to [2 PI] in equal steps; and the entry at row [i], column [j] is
    the remap of the user point [(x_i, radius cos theta_j, radius sin
    theta_j)], that is [(- x_i, radius sin theta_j, radius cos theta_j)]. *)
Theorem create_cylinder_grid (radius height : R) (num_points : nat) :
  0 < radius -> 0 < height -> (2 <= num_points)%nat ->
  let x_pipe i := - height / 2 + INR i * (height / INR (num_points - 1)) in
  let theta j := INR j * (2 * PI / INR (num_points - 1)) in
  let '(X_mpl, Y_mpl, Z_mpl) := create_cylinder radius height num_points in
  shape num_points num_points X_mpl /\
  shape num_points num_points Y_mpl /\
  shape num_points num_points Z_mpl /\
  x_pipe 0%nat = - height / 2 /\ x_pipe (num_points - 1)%nat = height / 2 /\
  theta 0%nat = 0 /\ theta (num_points - 1)%nat = 2 * PI /\
  forall i j, (i < num_points)%nat -> (j < num_points)%nat ->
    mk3 (nth j (nth i X_mpl []) 0) (nth j (nth i Y_mpl []) 0)
        (nth j (nth i Z_mpl []) 0) =
    user_to_mpl (mk3 (x_pipe i) (radius * cos (theta j))
                     (radius * sin (theta j))) /\
    nth j (nth i X_mpl []) 0 = - x_pipe i /\
    nth j (nth i Y_mpl []) 0 = radius * sin (theta j) /\
    nth j (nth i Z_mpl []) 0 = radius * cos (theta j).
Proof.
  intros Hr Hh Hn x_pipe theta. unfold create_cylinder.
  set (ts := linspace 0 (2 * PI) num_points).
  set (xs := linspace (- height / 2) (height / 2) num_points).
  assert (Hts : length ts = num_points) by apply length_linspace.
  assert (Hxs : length xs = num_points) by apply length_linspace.
  assert (Hd : INR (num_points - 1) <> 0) by (apply not_0_INR; lia).
  destruct (shape_meshgrid ts xs) as [HT HX]. rewrite Hts, Hxs in HT, HX.
  pose proof (nth_meshgrid ts xs) as Hnth.
  destruct (meshgrid ts xs) as [Theta X_user]. cbn [fst snd] in *.
  assert (Hent : forall i j, (i < num_points)%nat -> (j < num_points)%nat ->
            nth j (nth i Theta []) 0 = theta j /\
            nth j (nth i X_user []) 0 = x_pipe i).
  { intros i j Hi Hj. destruct (Hnth i j) as [E1 E2]; try lia.
    rewrite E1, E2. unfold ts, xs. rewrite !nth_linspace by auto.
    unfold theta, x_pipe. split; field; auto. }
  assert (Hlen : forall G i, shape num_points num_points G ->
            (i < num_points)%nat -> (i < length G)%nat /\
            length (nth i G []) = num_points).
  { intros G i [HGl HG] Hi. split; [lia|].
    rewrite Forall_forall in HG. apply HG. apply nth_In. lia. }
  split; [apply shape_grid_map; auto|].
  split; [apply shape_grid_map; auto|].
  split; [apply shape_grid_map; auto|].
  split; [unfold x_pipe; simpl; field; auto|].
  split; [unfold x_pipe; field; auto|].
  split; [unfold theta; simpl; field; auto|].
  split; [unfold theta; field; auto|].
  intros i j Hi Hj.
  destruct (Hent i j Hi Hj) as [ET EX].
  destruct (Hlen Theta i HT Hi) as [HTi HTj].
  destruct (Hlen X_user i HX Hi) as [HXi HXj].
  rewrite !nth_grid_map by lia. rewrite ET, EX.
  unfold user_to_mpl; cbn [c0 c1 c2]. auto.
Qed.

Lemma create_cylinder_grid_witness :
  0 < 100 /\ 0 < 250 /\ (2 <= 30)%nat /\
  shape 30 30 (fst (fst (create_cylinder 100 250 30))).
Proof.
  assert (Hr : 0 < 100) by lra.
  assert (Hh : 0 < 250) by lra.
  assert (Hn : (2 <= 30)%nat) by lia.
  split; [exact Hr|]. split; [exact Hh|]. split; [exact Hn|].
  pose proof (create_cylinder_grid 100 250 30 Hr Hh Hn) as H.
  cbv zeta in H.
  destruct (create_cylinder 100 250 30) as [[X Y] Z].
  exact (proj1 H).
Defined.

(** C9, as the code has it.  The remap is linear and preserves dot products
    and lengths; the remapped and scaled tool axes are pairwise orthogonal
    and each has the absolute value of the scale factor as its length. *)
Theorem user_to_mpl_orthogonal_map :
  (forall u v, dot3 (user_to_mpl u) (user_to_mpl v) = dot3 u v) /\
  (forall v, norm3 (user_to_mpl v) = norm3 v) /\
  (forall v s, user_to_mpl (v3scale v s) = v3scale (user_to_mpl v) s) /\
  (forall u v, user_to_mpl (v3add u v) = v3add (user_to_mpl u) (user_to_mpl v)) /\
  (forall theta_deg scale,
     dot3 (x_tool_mpl theta_deg scale) (y_tool_mpl scale) = 0 /\
     dot3 (y_tool_mpl scale) (z_tool_mpl theta_deg scale) = 0 /\
     dot3 (x_tool_mpl theta_deg scale) (z_tool_mpl theta_deg scale) = 0 /\
     norm3 (x_tool_mpl theta_deg scale) = Rabs scale /\
     norm3 (y_tool_mpl scale) = Rabs scale /\
     norm3 (z_tool_mpl theta_deg scale) = Rabs scale).
Proof.
  split; [apply dot3_user_to_mpl|].
  split; [apply norm3_user_to_mpl|].
  split; [apply user_to_mpl_scale|].
  split.
  { intros u v. unfold user_to_mpl, v3add; simpl. f_equal; ring. }
  intros theta_deg scale.
  destruct (tool_axes_orthogonal theta_deg) as (Hxy & Hyz & Hxz).
  unfold x_tool_mpl, y_tool_mpl, z_tool_mpl.
  rewrite !dot3_scale, !dot3_user_to_mpl, Hxy, Hyz, Hxz.
  rewrite !norm3_scale
    by (rewrite norm3_user_to_mpl;
        auto using norm3_x_tool, norm3_y_tool, norm3_z_tool).
  repeat split; ring.
Qed.

(** C9, as stated, fails for a negative scale factor: with scale -1 the
    remapped X-tool axis has length 1, not -1. *)
Lemma scaled_axis_length_not_scale :
  norm3 (x_tool_mpl 0 (-1)) = 1 /\ norm3 (x_tool_mpl 0 (-1)) <> -1.
Proof.
  assert (H : norm3 (x_tool_mpl 0 (-1)) = 1).
  { unfold x_tool_mpl.
    rewrite norm3_scale by (rewrite norm3_user_to_mpl; apply norm3_x_tool).
    unfold Rabs. destruct (Rcase_abs (-1)); lra. }
  split; [exact H|]. rewrite H. lra.
Qed.

(** C10, as the code has it.  The waypoint position is [(x_offset, 0, 0) +
    radius * Z-tool]: it lies in the plane [x = x_offset] at distance
    [|radius|] from the pipe axis, the Z-tool axis has length one and is
    orthogonal to the tangent X-tool axis; for a positive radius it is the
    outward unit normal at the position, and for a negative radius it is
    the opposite of it. *)
Theorem waypoint_on_circle (theta_deg radius x_offset : R) :
  let theta := deg2rad theta_deg in
  let centre := mk3 x_offset 0 0 in
  let pos := pos_user theta_deg radius x_offset in
  let z_tool := z_tool_user theta_deg in
  z_tool = mk3 0 (cos theta) (sin theta) /\
  pos = v3add centre (v3scale z_tool radius) /\
  c0 pos = x_offset /\
  c1 pos * c1 pos + c2 pos * c2 pos = radius * radius /\
  norm3 (v3sub pos centre) = Rabs radius /\
  norm3 z_tool = 1 /\
  dot3 z_tool (x_tool_user theta_deg) = 0 /\
  (0 < radius -> outward_normal centre pos = z_tool) /\
  (radius < 0 -> outward_normal centre pos = v3scale z_tool (-1)).
Proof.
  cbv zeta.
  pose proof (sin2_cos2 (deg2rad theta_deg)) as Hsc. unfold Rsqr in Hsc.
  assert (Hsub : v3sub (pos_user theta_deg radius x_offset) (mk3 x_offset 0 0)
                 = v3scale (z_tool_user theta_deg) radius).
  { unfold v3sub, v3scale, pos_user, z_tool_user; simpl. f_equal; ring. }
  split; [reflexivity|].
  split; [unfold v3add, v3scale, pos_user, z_tool_user; simpl; f_equal; ring|].
  split; [reflexivity|].
  split; [unfold pos_user; simpl; nra|].
  split; [rewrite Hsub; apply norm3_scale, norm3_z_tool|].
  split; [apply norm3_z_tool|].
  split; [unfold dot3, z_tool_user, x_tool_user; simpl; ring|].
  split; intros Hr; rewrite outward_normal_radial by lra.
  - rewrite Rabs_pos_eq by lra.
    unfold v3scale, z_tool_user; simpl. f_equal; field; lra.
  - rewrite Rabs_left by lra.
    unfold v3scale, z_tool_user; simpl. f_equal; field; lra.
Qed.

Lemma waypoint_on_circle_witness :
  0 < 100 /\
  outward_normal (mk3 (-80) 0 0) (pos_user 90 100 (-80)) = z_tool_user 90.
Proof.
  assert (Hr : 0 < 100) by lra.
  split; [exact Hr|].
  pose proof (waypoint_on_circle 90 100 (-80)) as H. cbv zeta in H.
  exact (proj1 (proj2 (proj2 (proj2 (proj2 (proj2 (proj2 (proj2 H))))))) Hr).
Defined.

(** C10, as stated, fails for a radius that is not positive: with radius -1
    the Z-tool axis is the inward normal, and with radius 0 the position is
    on the pipe axis, where there is no normal. *)
Lemma z_tool_not_outward_normal :
  outward_normal (mk3 0 0 0) (pos_user 0 (-1) 0) <> z_tool_user 0 /\
  outward_normal (mk3 0 0 0) (pos_user 0 0 0) <> z_tool_user 0.
Proof.
  assert (Hc : cos (deg2rad 0) = 1)
    by (unfold deg2rad; rewrite Rmult_0_l; apply cos_0).
  split.
  - rewrite outward_normal_radial by lra.
    rewrite Rabs_left by lra. intros E.
    apply (f_equal c1) in E. unfold v3scale, z_tool_user in E; simpl in E.
    rewrite Hc in E.
    assert (Hq : -1 / - -1 = -1) by (field; lra). rewrite Hq in E. lra.
  - unfold outward_normal, v3sub, v3scale, pos_user, z_tool_user; simpl.
    intros E. apply (f_equal c1) in E; simpl in E. rewrite Hc in E.
    rewrite !Rmult_0_l, Rminus_diag, Rmult_0_l in E. lra.
Qed.

(** ** The two scripts on their own data *)

(** X19.  [inv_det.py] raises nothing and prints, in this order, each of
    the three matrices, its inverse and its determinant. *)
Lemma inv_det_main_prints :
  inv_det_main =
  ([ PrintMatrix "4x4 Matrix H2:" H2;
     PrintMatrix "Inverse of 4x4 H2:" H2_inv_expected;
     PrintNumber "Determinant of 4x4 H2:" 1;
     PrintMatrix "3x3 Rotation Matrix from H2:" R_rot;
     PrintMatrix "Inverse of 3x3 R:" R_rot;
     PrintNumber "Determinant of 3x3 R:" 1;
     PrintMatrix "Additional 3x3 Matrix R_new:" R_new;
     PrintMatrix "Inverse of R_new:" R_new;
     PrintNumber "Determinant of R_new:" (-1) ], inr tt).
Proof.
  unfold inv_det_main.
  rewrite inv_H2_value, det_H2_value, inv_R_rot_value, det_R_rot_value,
    inv_R_new_value, det_R_new_value.
  reflexivity.
Qed.

(** The waypoint positions at 0 and 90 degrees, for the radius and offset
    the script uses. *)
Lemma pos_user_0 : pos_user 0 100 (-80) = mk3 (-80) 100 0.
Proof.
  unfold pos_user, deg2rad. rewrite Rmult_0_l, cos_0, sin_0.
  f_equal; ring.
Qed.

Lemma pos_user_90 : pos_user 90 100 (-80) = mk3 (-80) 0 100.
Proof.
  unfold pos_user, deg2rad.
  replace (90 * (PI / 180)) with (PI / 2) by field.
  rewrite cos_PI2, sin_PI2. f_equal; ring.
Qed.

(** ** Products with vectors *)

Lemma dot_nil_r a : dot a [] = 0.
Proof. destruct a; reflexivity. Qed.

Lemma dot_vadd u v w :
  length u = length v -> dot (vadd u v) w = dot u w + dot v w.
Proof.
  revert v w; induction u as [|x u IH]; intros [|y v] w; simpl;
    try discriminate; intros H.
  - unfold dot; simpl. ring.
  - destruct w as [|z w]; [rewrite !dot_nil_r; ring|].
    rewrite !dot_cons, IH by lia. ring.
Qed.

Lemma dot_vscale c u w : dot (vscale c u) w = c * dot u w.
Proof.
  revert w; induction u as [|x u IH]; intros w; simpl.
  - unfold dot; simpl. ring.
  - destruct w as [|z w]; [rewrite !dot_nil_r; ring|].
    rewrite !dot_cons, IH. ring.
Qed.

Lemma dot_zeros_l m w : dot (zeros m) w = 0.
Proof.
  revert w; induction m as [|m IH]; intros w; [reflexivity|].
  unfold zeros; cbn [repeat]. fold (zeros m).
  destruct w as [|z w]; [apply dot_nil_r|]. rewrite dot_cons, IH. ring.
Qed.

Lemma dot_lincomb w a B v :
  Forall (fun r => length r = w) B ->
  dot (lincomb w a B) v = dot a (mvmul B v).
Proof.
  intros HB; revert a; induction HB as [|b B Hb HB IH]; intros [|c a];
    cbn [lincomb mvmul map]; try (rewrite dot_zeros_l, ?dot_nil_r; reflexivity).
  rewrite dot_vadd, dot_vscale, IH, dot_cons by len. reflexivity.
Qed.

Lemma mvmul_mmul (M X : matrix) v :
  Forall (fun r => length r = width X) X ->
  mvmul (mmul M X) v = mvmul M (mvmul X v).
Proof.
  intros HX. unfold mmul, mvmul at 1 2. rewrite map_map.
  apply map_ext. intros a. apply dot_lincomb. exact HX.
Qed.

Lemma dot_unit_from i k : forall s (v : vec),
  length v = k ->
  dot (map (fun j => if Nat.eqb i j then 1 else 0) (seq s k)) v =
  if (s <=? i)%nat && (i <? s + k)%nat then nth (i - s) v 0 else 0.
Proof.
  induction k as [|k IH]; intros s v Hv.
  - destruct v; [|discriminate]. simpl.
    destruct (s <=? i)%nat eqn:E1, (i <? s + 0)%nat eqn:E2; simpl; auto.
    apply Nat.leb_le in E1. apply Nat.ltb_lt in E2. lia.
  - destruct v as [|x v]; [discriminate|]. cbn [seq map].
    rewrite dot_cons, (IH (S s) v) by (simpl in Hv; lia).
    destruct (Nat.eqb_spec i s) as [->|Hne].
    + rewrite Nat.leb_refl.
      destruct (Nat.ltb_spec s (s + S k)); [|lia].
      destruct (Nat.leb_spec (S s) s); [lia|].
      rewrite Nat.sub_diag. simpl. ring.
    + destruct (Nat.leb_spec s i), (Nat.leb_spec (S s) i); try lia;
        destruct (Nat.ltb_spec i (s + S k)), (Nat.ltb_spec i (S s + k));
        try lia; cbn [andb]; try ring.
      replace (i - s)%nat with (S (i - S s)) by lia. simpl. ring.
Qed.

Lemma dot_unit_row_l n i (v : vec) :
  length v = n -> (i < n)%nat -> dot (unit_row n i) v = nth i v 0.
Proof.
  intros Hv Hi. unfold unit_row. rewrite dot_unit_from by exact Hv.
  destruct (Nat.ltb_spec i (0 + n)); [|lia].
  simpl. rewrite Nat.sub_0_r. reflexivity.
Qed.

Lemma dot_comm : forall a c, dot a c = dot c a.
Proof.
  induction a as [|x a IH]; intros [|y c]; try reflexivity.
  rewrite !dot_cons, IH. ring.
Qed.

Lemma mvmul_identity n (v : vec) : length v = n -> mvmul (identity n) v = v.
Proof.
  intros Hv. unfold mvmul, identity. rewrite map_map.
  apply (nth_ext _ _ 0 0).
  - rewrite length_map, length_seq. auto.
  - intros i Hi. rewrite length_map, length_seq in Hi.
    rewrite nth_map_seq by exact Hi. apply dot_unit_row_l; auto.
Qed.

Lemma mvmul_zeros (M : matrix) n : mvmul M (zeros n) = zeros (length M).
Proof.
  unfold mvmul, zeros. induction M as [|a M IH]; [reflexivity|].
  cbn [map length repeat]. rewrite IH. fold (zeros n). rewrite dot_zeros.
  reflexivity.
Qed.

Lemma length_mvmul (M : matrix) v : length (mvmul M v) = length M.
Proof. apply length_map. Qed.

(** Two matrices of one shape that act alike on every vector are equal. *)
Lemma matrix_ext n m (A B : matrix) :
  shape n m A -> shape n m B ->
  (forall v, length v = m -> mvmul A v = mvmul B v) -> A = B.
Proof.
  intros [HAl HA] [HBl HB] E.
  apply (nth_ext _ _ [] []); [congruence|].
  intros i Hi.
  assert (Hra : length (nth i A []) = m).
  { rewrite Forall_forall in HA. apply HA, nth_In. exact Hi. }
  assert (Hrb : length (nth i B []) = m).
  { rewrite Forall_forall in HB. apply HB, nth_In. lia. }
  apply vec_eq_iff; [congruence|]. intros j.
  destruct (Nat.lt_ge_cases j m) as [Hj|Hj].
  - specialize (E (unit_row m j) (length_unit_row m j)).
    apply (f_equal (fun u => nth i u 0)) in E. unfold mvmul in E.
    rewrite (nth_indep _ 0 (dot [] (unit_row m j))) in E
      by (rewrite length_map; exact Hi).
    rewrite (map_nth (fun a => dot a (unit_row m j)) A [] i) in E.
    rewrite (nth_indep (map _ B) 0 (dot [] (unit_row m j))) in E
      by (rewrite length_map; lia).
    rewrite (map_nth (fun a => dot a (unit_row m j)) B [] i) in E.
    rewrite !(dot_comm _ (unit_row m j)), !dot_unit_row_l in E by auto.
    exact E.
  - rewrite !nth_overflow by lia. reflexivity.
Qed.

(** ** The inverse on both sides *)

Lemma shape_width n m (X : matrix) :
  shape n m X -> Forall (fun r => length r = width X) X.
Proof.
  intros [Hl HX]. destruct X as [|x X]; [constructor|].
  rewrite (width_shape (length X) m) by (split; auto). exact HX.
Qed.

Lemma left_inverse_no_null n (M X : matrix) :
  shape n n M -> length X = n -> mmul X M = identity n -> ~ null_vector n M.
Proof.
  intros HM HX E (v & Hv & Hnz & Hz). apply Hnz.
  rewrite <- (mvmul_identity n v Hv), <- E.
  rewrite mvmul_mmul by (apply (shape_width n n); exact HM).
  rewrite Hz, mvmul_zeros, HX. reflexivity.
Qed.

(** A square matrix with a left and a right inverse [X] is inverted to [X]. *)
Lemma inv_two_sided n (M X : matrix) :
  shape n n M -> shape n n X ->
  mmul X M = identity n -> mmul M X = identity n -> inv M = inr X.
Proof.
  intros HM HX EL ER. apply (inv_eq n); auto.
  rewrite (det_zero_iff_null n M HM).
  apply (left_inverse_no_null n M X); auto. apply HX.
Qed.

Lemma inv_left_and_back n (M X : matrix) :
  length M = n -> inv M = inr X ->
  mmul X M = identity n /\ inv X = inr M.
Proof.
  intros Hn HX.
  destruct (inv_returns n M X Hn HX) as (HMs & HXs & Hu).
  assert (ER : mmul M X = identity n) by (apply Hu; auto).
  assert (Hnn : ~ null_vector n X)
    by (apply (left_inverse_no_null n X M); auto).
  rewrite <- (det_zero_iff_null n X HXs) in Hnn.
  destruct (inv_total n X HXs Hnn) as [Y HY].
  destruct (inv_returns n X Y (proj1 HXs) HY) as (_ & HYs & HuY).
  assert (EY : mmul X Y = identity n) by (apply HuY; auto).
  assert (HMY : M = Y).
  { apply (matrix_ext n n); auto. intros v Hv.
    rewrite <- (mvmul_identity n v Hv) at 1. rewrite <- EY.
    rewrite mvmul_mmul by (apply (shape_width n n); exact HYs).
    rewrite <- mvmul_mmul by (apply (shape_width n n); exact HXs).
    rewrite ER. apply mvmul_identity. rewrite length_mvmul. apply HYs. }
  subst Y. split; [exact EY|exact HY].
Qed.





(** ** The identity matrix *)

Lemma map_const_seq (x : R) s n : map (fun _ => x) (seq s n) = repeat x n.
Proof.
  revert s; induction n as [|n IH]; intros s; simpl; [reflexivity|].
  rewrite IH. reflexivity.
Qed.

Lemma identity_S n :
  identity (S n) = (1 :: zeros n) :: map (cons 0) (identity n).
Proof.
  unfold identity, unit_row. cbn [seq map Nat.eqb].
  rewrite <- !seq_shift, !map_map. cbn [Nat.eqb].
  rewrite map_const_seq. f_equal.
  apply map_ext. intros i. rewrite map_map. reflexivity.
Qed.

Lemma laplace_identity n : laplace n (identity n) = 1.
Proof.
  induction n as [|n IH]; [reflexivity|].
  rewrite identity_S. cbn [laplace expand app].
  rewrite expand_zero_heads.
  - rewrite map_map. cbn [tl]. rewrite map_id, IH. unfold hd0; simpl. ring.
  - rewrite Forall_map, Forall_forall. intros; reflexivity.
Qed.

Lemma mmul_identity_l n (X : matrix) :
  shape n n X -> mmul (identity n) X = X.
Proof.
  intros HX. apply (matrix_ext n n); auto.
  - rewrite (mmul_lincomb n) by (auto; apply shape_identity).
    split; [rewrite length_map; apply shape_identity|].
    rewrite Forall_map, Forall_forall. intros a _. apply length_lincomb, HX.
  - intros v Hv.
    rewrite mvmul_mmul by (apply (shape_width n n); exact HX).
    apply mvmul_identity. rewrite length_mvmul. apply HX.
Qed.

(** X3.  The identity of every size, the empty matrix included, has
    determinant 1 and is its own inverse. *)
Theorem identity_det_inv (n : nat) :
  det (identity n) = inr 1 /\ inv (identity n) = inr (identity n).
Proof.
  pose proof (shape_identity n) as HI.
  split.
  - rewrite (det_laplace n) by exact HI. rewrite laplace_identity. reflexivity.
  - apply (inv_two_sided n); auto; apply mmul_identity_l; exact HI.
Qed.

(** ** Homogeneous transforms *)

Ltac destruct_vec v :=
  repeat (let x := fresh "x" in destruct v as [|x v]; try discriminate).

Lemma shape_3_3 (Rm : matrix) :
  shape 3 3 Rm ->
  exists a b c d e f g h i, Rm = [[a; b; c]; [d; e; f]; [g; h; i]].
Proof.
  intros [Hl HR].
  destruct Rm as [|r1 [|r2 [|r3 [|r4 Rm]]]]; try discriminate.
  apply Forall_cons_iff in HR. destruct HR as [H1 HR].
  apply Forall_cons_iff in HR. destruct HR as [H2' HR].
  apply Forall_cons_iff in HR. destruct HR as [H3 _].
  destruct r1 as [|a [|b [|c [|? ?]]]]; try discriminate.
  destruct r2 as [|d [|e [|f [|? ?]]]]; try discriminate.
  destruct r3 as [|g [|h [|i [|? ?]]]]; try discriminate.
  repeat eexists.
Qed.

Lemma length_3 (t : vec) : length t = 3%nat -> exists x y z, t = [x; y; z].
Proof.
  destruct t as [|x [|y [|z [|? ?]]]]; try discriminate. repeat eexists.
Qed.

Lemma det_homogeneous_3 Rm t :
  shape 3 3 Rm -> length t = 3%nat -> det (homogeneous Rm t) = det Rm.
Proof.
  intros HR Ht.
  destruct (shape_3_3 Rm HR) as (a & b & c & d & e & f & g & h & i & ->).
  destruct (length_3 t Ht) as (x & y & z & ->).
  rewrite (det_laplace 3 [[a; b; c]; [d; e; f]; [g; h; i]]) by exact HR.
  rewrite (det_laplace 4) by (unfold homogeneous, zeros; simpl; shape_tac).
  f_equal. unfold homogeneous, zeros.
  cbn [combine map fst snd app length repeat laplace expand tl].
  unfold hd0. cbn [hd]. ring.
Qed.

Ltac mmul_unfold_in H :=
  unfold mmul, width, identity, unit_row in H;
  cbn [hd length map seq Nat.eqb lincomb] in H;
  unfold vscale, zeros in H; cbn [map vadd repeat] in H.

Lemma inv_homogeneous_3 Rm t Ri :
  length t = 3%nat -> length Rm = 3%nat -> inv Rm = inr Ri ->
  inv (homogeneous Rm t) =
  inr (homogeneous Ri (vscale (-1) (mvmul Ri t))).
Proof.
  intros Ht Hl HRi.
  destruct (inv_returns 3 Rm Ri Hl HRi) as (HR & HRis & Hu).
  assert (ER : mmul Rm Ri = identity 3) by (apply Hu; auto).
  destruct (inv_left_and_back 3 Rm Ri Hl HRi) as [EL _].
  destruct (shape_3_3 Rm HR) as (a & b & c & d & e & f & g & h & i & ->).
  destruct (shape_3_3 Ri HRis)
    as (a' & b' & c' & d' & e' & f' & g' & h' & i' & ->).
  destruct (length_3 t Ht) as (x & y & z & ->).
  mmul_unfold_in ER. mmul_unfold_in EL.
  injection ER as R11 R12 R13 R21 R22 R23 R31 R32 R33.
  injection EL as L11 L12 L13 L21 L22 L23 L31 L32 L33.
  apply (inv_two_sided 4);
    try (unfold homogeneous, mvmul, dot, vscale, zeros; simpl; shape_tac).
  - unfold homogeneous, mvmul, dot, vscale, zeros.
    cbn [combine map fst snd app length repeat fold_right].
    unfold mmul, width, identity, unit_row.
    cbn [hd length map seq Nat.eqb lincomb].
    unfold vscale, zeros; cbn [map vadd repeat].
    clear R11 R12 R13 R21 R22 R23 R31 R32 R33.
    repeat (f_equal; try nsatz).
  - unfold homogeneous, mvmul, dot, vscale, zeros.
    cbn [combine map fst snd app length repeat fold_right].
    unfold mmul, width, identity, unit_row.
    cbn [hd length map seq Nat.eqb lincomb].
    unfold vscale, zeros; cbn [map vadd repeat].
    clear L11 L12 L13 L21 L22 L23 L31 L32 L33.
    repeat (f_equal; try nsatz).
Qed.

Lemma H2_homogeneous : H2 = homogeneous R_rot [-5; 10; 8].
Proof. reflexivity. Qed.

Lemma slice_homogeneous_3 Rm t :
  shape 3 3 Rm -> length t = 3%nat -> slice 3 3 (homogeneous Rm t) = Rm.
Proof.
  intros HR Ht.
  destruct (shape_3_3 Rm HR) as (a & b & c & d & e & f & g & h & i & ->).
  destruct (length_3 t Ht) as (x & y & z & ->). reflexivity.
Qed.

Lemma square_length_shape n (M : matrix) :
  length M = n -> is_square M = true -> shape n n M.
Proof. intros <- H. apply is_square_shape. exact H. Qed.

(** X4.  The determinant of a 4x4 homogeneous transform is the determinant
    of its 3x3 rotation block, whatever the translation. *)
Theorem homogeneous_det (Rm : matrix) (t : vec) :
  shape 3 3 Rm -> length t = 3%nat ->
  shape 4 4 (homogeneous Rm t) /\
  slice 3 3 (homogeneous Rm t) = Rm /\
  det (homogeneous Rm t) = det Rm.
Proof.
  intros HR Ht. split; [|split].
  - destruct (shape_3_3 Rm HR) as (a & b & c & d & e & f & g & h & i & ->).
    destruct (length_3 t Ht) as (x & y & z & ->).
    unfold homogeneous, zeros; simpl. shape_tac.
  - apply slice_homogeneous_3; auto.
  - apply det_homogeneous_3; auto.
Qed.

Lemma homogeneous_det_witness :
  shape 3 3 R_rot /\ length [-5; 10; 8] = 3%nat /\
  homogeneous R_rot [-5; 10; 8] = H2 /\ det H2 = det R_rot.
Proof.
  assert (HR : shape 3 3 R_rot) by shape_tac.
  split; [exact HR|]. split; [reflexivity|]. split; [reflexivity|].
  exact (proj2 (proj2 (homogeneous_det R_rot [-5; 10; 8] HR eq_refl))).
Defined.

(** X5.  When the rotation block [Rm] of a 4x4 homogeneous transform is
    inverted to [Ri], the transform is inverted to the homogeneous
    transform with rotation block [Ri] and translation [- Ri t]; when
    inverting the block raises "Singular matrix", so does inverting the
    transform. *)
Theorem homogeneous_inv (Rm : matrix) (t : vec) :
  length Rm = 3%nat -> length t = 3%nat ->
  (forall Ri, inv Rm = inr Ri ->
     inv (homogeneous Rm t) =
       inr (homogeneous Ri (vscale (-1) (mvmul Ri t))) /\
     slice 3 3 (homogeneous Ri (vscale (-1) (mvmul Ri t))) = Ri) /\
  (inv Rm = inl SingularMatrix ->
     inv (homogeneous Rm t) = inl SingularMatrix).
Proof.
  intros Hl Ht. split.
  - intros Ri HRi. split; [apply inv_homogeneous_3; auto|].
    destruct (inv_returns 3 Rm Ri Hl HRi) as (_ & HRis & _).
    apply slice_homogeneous_3; [exact HRis|].
    rewrite length_vscale, length_mvmul. apply HRis.
  - intros HS.
    assert (HR : shape 3 3 Rm).
    { apply square_length_shape; [exact Hl|].
      unfold inv in HS. destruct (is_square Rm); [reflexivity|discriminate]. }
    apply inv_singular_iff. rewrite det_homogeneous_3 by auto.
    apply inv_singular_iff. exact HS.
Qed.

Lemma homogeneous_inv_witness :
  length R_rot = 3%nat /\ length [-5; 10; 8] = 3%nat /\
  inv R_rot = inr R_rot /\
  inv H2 = inr (homogeneous R_rot (vscale (-1) (mvmul R_rot [-5; 10; 8]))).
Proof.
  split; [reflexivity|]. split; [reflexivity|]. split; [exact inv_R_rot_value|].
  exact (proj1 (proj1 (homogeneous_inv R_rot [-5; 10; 8] eq_refl eq_refl)
                  R_rot inv_R_rot_value)).
Defined.

(** ** Blocks and the square check *)

Lemma shape_slice n m r c (M : matrix) :
  shape n m M -> shape (Nat.min r n) (Nat.min c m) (slice r c M).
Proof.
  intros [Hl HM]. unfold slice. split.
  - rewrite length_map, length_firstn, Hl. reflexivity.
  - rewrite Forall_map. apply Forall_forall. intros x Hx.
    rewrite length_firstn. rewrite Forall_forall in HM.
    rewrite (HM x); [reflexivity|].
    rewrite <- (firstn_skipn r M). apply in_or_app. left. exact Hx.
Qed.

Lemma inv_not_square_iff M : inv M = inl NotSquare <-> is_square M = false.
Proof.
  unfold inv. destruct (is_square M); [|tauto].
  destruct (gesv M (identity (length M))); split; discriminate.
Qed.

Lemma det_not_square_iff M : det M = inl NotSquare <-> is_square M = false.
Proof. unfold det. destruct (is_square M); [split; discriminate|tauto]. Qed.

(** X6.  The block [M[:r, :c]] of an [n]x[m] array has [min r n] rows and
    [min c m] columns; when it has a row, [inv] and [det] raise "not
    square" on it exactly when those two numbers differ, and [det] raises
    nothing else. *)
Theorem slice_square_check (n m r c : nat) (M : matrix) :
  shape n m M -> (0 < Nat.min r n)%nat ->
  shape (Nat.min r n) (Nat.min c m) (slice r c M) /\
  (inv (slice r c M) = inl NotSquare <-> Nat.min r n <> Nat.min c m) /\
  (det (slice r c M) = inl NotSquare <-> Nat.min r n <> Nat.min c m) /\
  (forall e, det (slice r c M) = inl e -> e = NotSquare).
Proof.
  intros HM Hpos. pose proof (shape_slice n m r c M HM) as HS.
  assert (Hsq : is_square (slice r c M) = false <->
                Nat.min r n <> Nat.min c m).
  { destruct HS as [Hl HR]. split.
    - intros Hf E. rewrite <- E in HR.
      assert (Ht : is_square (slice r c M) = true)
        by (apply is_square_shape; rewrite Hl; split; auto).
      congruence.
    - intros Hne. destruct (is_square (slice r c M)) eqn:Ht; [|reflexivity].
      apply is_square_shape in Ht. destruct Ht as [_ Ht]. rewrite Hl in Ht.
      destruct (slice r c M) as [|x S']; [simpl in Hl; lia|].
      apply Forall_cons_iff in HR. apply Forall_cons_iff in Ht.
      destruct HR as [HR _]. destruct Ht as [Ht _]. congruence. }
  split; [exact HS|].
  split; [rewrite inv_not_square_iff; exact Hsq|].
  split; [rewrite det_not_square_iff; exact Hsq|].
  intros e. unfold det. destruct (is_square (slice r c M)); congruence.
Qed.

Lemma slice_square_check_witness :
  shape 4 4 H2 /\ (0 < Nat.min 3 4)%nat /\
  inv (slice 3 4 H2) = inl NotSquare.
Proof.
  assert (HM : shape 4 4 H2) by shape_tac.
  assert (Hp : (0 < Nat.min 3 4)%nat) by (simpl; lia).
  split; [exact HM|]. split; [exact Hp|].
  apply (proj1 (proj2 (slice_square_check 4 4 3 4 H2 HM Hp))).
  simpl. lia.
Defined.

(** ** Samples and the pipe mesh *)

Lemma linspace_one start stop : linspace start stop 1 = [start].
Proof.
  unfold linspace. cbn [Nat.sub Nat.ltb Nat.leb seq map INR]. f_equal. ring.
Qed.

(** X7.  [linspace start stop num] has [num] samples; none for [num = 0],
    only [start] for [num = 1]; from two samples on the first is [start],
    the last is [stop] and neighbours differ by [(stop - start) / (num -
    1)]. *)
Theorem linspace_samples_spec (start stop : R) (num : nat) :
  length (linspace start stop num) = num /\
  linspace start stop 0 = [] /\
  linspace start stop 1 = [start] /\
  ((2 <= num)%nat ->
     nth 0 (linspace start stop num) 0 = start /\
     nth (num - 1) (linspace start stop num) 0 = stop /\
     forall i, (S i < num)%nat ->
       nth (S i) (linspace start stop num) 0 -
       nth i (linspace start stop num) 0 = (stop - start) / INR (num - 1)).
Proof.
  split; [apply length_linspace|]. split; [reflexivity|].
  split; [apply linspace_one|].
  intros Hn.
  assert (Hd : INR (num - 1) <> 0) by (apply not_0_INR; lia).
  split; [|split].
  - rewrite nth_linspace by lia. simpl. ring.
  - rewrite nth_linspace by lia. field. exact Hd.
  - intros i Hi. rewrite !nth_linspace by lia. rewrite S_INR. field. exact Hd.
Qed.

Lemma linspace_samples_spec_witness :
  (2 <= 30)%nat /\
  nth 0 (linspace 0 (2 * PI) 30) 0 = 0 /\
  nth 29 (linspace 0 (2 * PI) 30) 0 = 2 * PI.
Proof.
  assert (Hn : (2 <= 30)%nat) by lia.
  split; [exact Hn|].
  destruct (proj2 (proj2 (proj2 (linspace_samples_spec 0 (2 * PI) 30))) Hn)
    as (H0 & Hl & _).
  split; [exact H0|exact Hl].
Defined.

Lemma create_cylinder_entries radius height num_points i j :
  (2 <= num_points)%nat -> (i < num_points)%nat -> (j < num_points)%nat ->
  let '(X_mpl, Y_mpl, Z_mpl) := create_cylinder radius height num_points in
  let x := - height / 2 + INR i * (height / INR (num_points - 1)) in
  let theta := INR j * (2 * PI / INR (num_points - 1)) in
  nth j (nth i X_mpl []) 0 = - x /\
  nth j (nth i Y_mpl []) 0 = radius * sin theta /\
  nth j (nth i Z_mpl []) 0 = radius * cos theta.
Proof.
  intros Hn Hi Hj. unfold create_cylinder.
  set (ts := linspace 0 (2 * PI) num_points).
  set (xs := linspace (- height / 2) (height / 2) num_points).
  assert (Hts : length ts = num_points) by apply length_linspace.
  assert (Hxs : length xs = num_points) by apply length_linspace.
  assert (Hd : INR (num_points - 1) <> 0) by (apply not_0_INR; lia).
  destruct (shape_meshgrid ts xs) as [[HTl HT] [HXl HX]].
  rewrite Hts, Hxs in *.
  destruct (nth_meshgrid ts xs i j) as [E1 E2]; try lia.
  destruct (meshgrid ts xs) as [Theta X_user]. cbn [fst snd] in *.
  assert (HTi : length (nth i Theta []) = num_points).
  { rewrite Forall_forall in HT. apply HT, nth_In. lia. }
  assert (HXi : length (nth i X_user []) = num_points).
  { rewrite Forall_forall in HX. apply HX, nth_In. lia. }
  rewrite !nth_grid_map by lia. rewrite E1, E2. unfold ts, xs.
  rewrite !nth_linspace by auto.
  assert (Et : 0 + INR j * ((2 * PI - 0) / INR (num_points - 1)) =
               INR j * (2 * PI / INR (num_points - 1))) by (field; auto).
  rewrite Et. split; [field; auto|]. split; reflexivity.
Qed.

(** X8.  From two samples on, every point of the pipe mesh lies on the
    cylinder of the given radius and, for a length that is not negative,
    between its two ends; the first column of the mesh is the last one (the
    surface closes on itself), the rows run from the end [height/2] to the
    end [-height/2] in render coordinates, the longitudinal grid is
    constant along a row and the two radial grids along a column. *)
Theorem cylinder_mesh_on_surface (radius height : R) (num_points : nat) :
  (2 <= num_points)%nat ->
  let '(X_mpl, Y_mpl, Z_mpl) := create_cylinder radius height num_points in
  let X i j := nth j (nth i X_mpl []) 0 in
  let Y i j := nth j (nth i Y_mpl []) 0 in
  let Z i j := nth j (nth i Z_mpl []) 0 in
  forall i j, (i < num_points)%nat -> (j < num_points)%nat ->
    Y i j * Y i j + Z i j * Z i j = radius * radius /\
    (0 <= height -> - height / 2 <= X i j <= height / 2) /\
    Y i 0%nat = Y i (num_points - 1)%nat /\
    Z i 0%nat = Z i (num_points - 1)%nat /\
    X 0%nat j = height / 2 /\ X (num_points - 1)%nat j = - height / 2 /\
    X i j = X i 0%nat /\ Y i j = Y 0%nat j /\ Z i j = Z 0%nat j.
Proof.
  intros Hn.
  pose proof (create_cylinder_entries radius height num_points) as E.
  destruct (create_cylinder radius height num_points) as [[X_mpl Y_mpl] Z_mpl].
  cbv zeta in *. intros i j Hi Hj.
  assert (Hd : 0 < INR (num_points - 1)) by (apply lt_0_INR; lia).
  destruct (E i j Hn Hi Hj) as (EX & EY & EZ).
  destruct (E i 0%nat Hn Hi ltac:(lia)) as (EX0 & EY0 & EZ0).
  destruct (E i (num_points - 1)%nat Hn Hi ltac:(lia)) as (_ & EYl & EZl).
  destruct (E 0%nat j Hn ltac:(lia) Hj) as (EXf & EYf & EZf).
  destruct (E (num_points - 1)%nat j Hn ltac:(lia) Hj) as (EXl & _ & _).
  assert (H2pi : INR (num_points - 1) * (2 * PI / INR (num_points - 1)) = 2 * PI)
    by (field; lra).
  split; [|split; [|split; [|split; [|split; [|split; [|split; [|split]]]]]]].
  - rewrite EY, EZ.
    set (t := INR j * (2 * PI / INR (num_points - 1))).
    pose proof (sin2_cos2 t) as Hsc. unfold Rsqr in Hsc. nra.
  - intros Hh. rewrite EX.
    assert (Hi' : 0 <= INR i <= INR (num_points - 1)).
    { split; [apply pos_INR|apply le_INR; lia]. }
    assert (Hq : 0 <= INR i * (height / INR (num_points - 1)) <= height).
    { assert (Hk : 0 <= height / INR (num_points - 1)).
      { apply Rmult_le_pos; [lra|]. apply Rlt_le, Rinv_0_lt_compat, Hd. }
      split; [apply Rmult_le_pos; tauto|].
      replace height with (INR (num_points - 1) * (height / INR (num_points - 1)))
        at 2 by (field; lra).
      apply Rmult_le_compat_r; tauto. }
    lra.
  - rewrite EY0, EYl, H2pi. simpl INR. rewrite Rmult_0_l, sin_0, sin_2PI.
    reflexivity.
  - rewrite EZ0, EZl, H2pi. simpl INR. rewrite Rmult_0_l, cos_0, cos_2PI.
    reflexivity.
  - rewrite EXf. simpl INR. lra.
  - rewrite EXl. field. lra.
  - rewrite EX, EX0. reflexivity.
  - rewrite EY, EYf. reflexivity.
  - rewrite EZ, EZf. reflexivity.
Qed.

Lemma cylinder_mesh_on_surface_witness :
  (2 <= 30)%nat /\
  forall i j, (i < 30)%nat -> (j < 30)%nat ->
    nth j (nth i (snd (fst (create_cylinder 100 250 30))) []) 0 *
    nth j (nth i (snd (fst (create_cylinder 100 250 30))) []) 0 +
    nth j (nth i (snd (create_cylinder 100 250 30)) []) 0 *
    nth j (nth i (snd (create_cylinder 100 250 30)) []) 0 = 100 * 100.
Proof.
  assert (Hn : (2 <= 30)%nat) by lia.
  split; [exact Hn|].
  pose proof (cylinder_mesh_on_surface 100 250 30 Hn) as H.
  destruct (create_cylinder 100 250 30) as [[X Y] Z]. cbv zeta in H.
  intros i j Hi Hj. exact (proj1 (H i j Hi Hj)).
Defined.

(** X9.  With no sample the three grids of the mesh are empty, and with one
    sample the mesh is the single point at the start of both ranges: render
    coordinates [(height/2, 0, radius)]. *)
Theorem create_cylinder_few_samples (radius height : R) :
  create_cylinder radius height 0 = ([], [], []) /\
  create_cylinder radius height 1 = ([[height / 2]], [[0]], [[radius]]).
Proof.
  split; [reflexivity|].
  unfold create_cylinder. rewrite !linspace_one.
  unfold meshgrid, grid_map. cbn [map].
  rewrite sin_0, cos_0. repeat f_equal; field.
Qed.

(** ** Orientation and symmetries of the tool frame *)

Lemma deg2rad_plus a b : deg2rad (a + b) = deg2rad a + deg2rad b.
Proof. unfold deg2rad. ring. Qed.

Lemma deg2rad_180 : deg2rad 180 = PI.
Proof. unfold deg2rad. field. Qed.

Lemma deg2rad_360 : deg2rad 360 = 2 * PI.
Proof. unfold deg2rad. field. Qed.

Lemma deg2rad_90 : deg2rad 90 = PI / 2.
Proof. unfold deg2rad. field. Qed.

Lemma deg2rad_270 : deg2rad 270 = 3 * (PI / 2).
Proof. unfold deg2rad. field. Qed.

(** X10.  The tool frame is right-handed: X-tool x Y-tool = Z-tool, and
    cyclically; the remap keeps cross products, so the frame handed to the
    renderer is right-handed too, each scaled axis crossed with the next
    giving the third one times the scale. *)
Theorem tool_frame_right_handed (theta_deg scale : R) :
  cross3 (x_tool_user theta_deg) y_tool_user = z_tool_user theta_deg /\
  cross3 y_tool_user (z_tool_user theta_deg) = x_tool_user theta_deg /\
  cross3 (z_tool_user theta_deg) (x_tool_user theta_deg) = y_tool_user /\
  (forall u v,
     user_to_mpl (cross3 u v) = cross3 (user_to_mpl u) (user_to_mpl v)) /\
  cross3 (x_tool_mpl theta_deg scale) (y_tool_mpl scale) =
    v3scale (z_tool_mpl theta_deg scale) scale /\
  cross3 (y_tool_mpl scale) (z_tool_mpl theta_deg scale) =
    v3scale (x_tool_mpl theta_deg scale) scale /\
  cross3 (z_tool_mpl theta_deg scale) (x_tool_mpl theta_deg scale) =
    v3scale (y_tool_mpl scale) scale.
Proof.
  pose proof (sin2_cos2 (deg2rad theta_deg)) as Hsc. unfold Rsqr in Hsc.
  unfold x_tool_mpl, y_tool_mpl, z_tool_mpl, cross3, user_to_mpl, v3scale,
    x_tool_user, y_tool_user, z_tool_user; cbn [c0 c1 c2].
  repeat split; try (intros u v); f_equal; try ring;
    rewrite <- Hsc; ring.
Qed.

(** X11.  A full turn of 360 degrees gives the same waypoint position and
    the same tool axes; a half turn of 180 degrees negates the X-tool and
    Z-tool axes, keeps the Y-tool axis and sends the position to the
    opposite point of the circle. *)
Theorem tool_frame_turns (theta_deg radius x_offset : R) :
  pos_user (theta_deg + 360) radius x_offset =
    pos_user theta_deg radius x_offset /\
  x_tool_user (theta_deg + 360) = x_tool_user theta_deg /\
  z_tool_user (theta_deg + 360) = z_tool_user theta_deg /\
  x_tool_user (theta_deg + 180) = v3scale (x_tool_user theta_deg) (-1) /\
  z_tool_user (theta_deg + 180) = v3scale (z_tool_user theta_deg) (-1) /\
  pos_user (theta_deg + 180) radius x_offset =
    v3sub (mk3 (2 * x_offset) 0 0) (pos_user theta_deg radius x_offset).
Proof.
  unfold pos_user, x_tool_user, z_tool_user, v3scale, v3sub; cbn [c0 c1 c2].
  rewrite !deg2rad_plus, deg2rad_360, deg2rad_180.
  rewrite !cos_plus, !sin_plus, sin_2PI, cos_2PI, sin_PI, cos_PI.
  repeat split; f_equal; ring.
Qed.

(** X12.  The four waypoints 0, 90, 180 and 270 degrees are the top, the
    front, the bottom and the back of the circle: positions [(x, r, 0)],
    [(x, 0, r)], [(x, -r, 0)], [(x, 0, -r)], with the Z-tool axis pointing
    up, outward, down, inward and the X-tool axis a quarter turn ahead. *)
Theorem waypoint_frames (radius x_offset : R) :
  map (fun theta_deg => pos_user theta_deg radius x_offset) waypoints =
    [ mk3 x_offset radius 0; mk3 x_offset 0 radius;
      mk3 x_offset (- radius) 0; mk3 x_offset 0 (- radius) ] /\
  map z_tool_user waypoints =
    [ mk3 0 1 0; mk3 0 0 1; mk3 0 (-1) 0; mk3 0 0 (-1) ] /\
  map x_tool_user waypoints =
    [ mk3 0 0 1; mk3 0 (-1) 0; mk3 0 0 (-1); mk3 0 1 0 ].
Proof.
  unfold waypoints, pos_user, z_tool_user, x_tool_user. cbn [map].
  rewrite deg2rad_90, deg2rad_180, deg2rad_270.
  replace (deg2rad 0) with 0 by (unfold deg2rad; ring).
  rewrite cos_0, sin_0, cos_PI2, sin_PI2, cos_PI, sin_PI, cos_3PI2, sin_3PI2.
  repeat split; repeat (f_equal; try ring).
Qed.

(** ** The direction of travel *)

Lemma derivable_pt_lim_eq (f g : R -> R) x l :
  (forall y, f y = g y) -> derivable_pt_lim f x l -> derivable_pt_lim g x l.
Proof.
  intros E H eps Heps. destruct (H eps Heps) as [delta Hd].
  exists delta. intros h Hh Hlt. rewrite <- !E. apply Hd; auto.
Qed.

Lemma derivable_pt_lim_deg2rad x : derivable_pt_lim deg2rad x (PI / 180).
Proof.
  apply (derivable_pt_lim_eq (mult_real_fct (PI / 180) id)).
  - intros y. unfold mult_real_fct, id, deg2rad. ring.
  - replace (PI / 180) with (PI / 180 * 1) at 2 by ring.
    apply derivable_pt_lim_scal, derivable_pt_lim_id.
Qed.

Lemma derivable_pt_lim_radial (trig : R -> R) l radius theta_deg :
  derivable_pt_lim trig (deg2rad theta_deg) l ->
  derivable_pt_lim (fun d => radius * trig (deg2rad d)) theta_deg
    (radius * (PI / 180) * l).
Proof.
  intros H.
  apply (derivable_pt_lim_eq (mult_real_fct radius (comp trig deg2rad)));
    [reflexivity|].
  replace (radius * (PI / 180) * l) with (radius * (l * (PI / 180))) by ring.
  apply derivable_pt_lim_scal, derivable_pt_lim_comp;
    [apply derivable_pt_lim_deg2rad|exact H].
Qed.

(** X13.  The X-tool axis is the direction of travel: the derivative of the
    waypoint position with respect to the angle in degrees is the X-tool
    axis times [radius * PI / 180], component by component. *)
Theorem x_tool_is_direction_of_travel (theta_deg radius x_offset : R) :
  let travel := v3scale (x_tool_user theta_deg) (radius * (PI / 180)) in
  derivable_pt_lim (fun d => c0 (pos_user d radius x_offset)) theta_deg
    (c0 travel) /\
  derivable_pt_lim (fun d => c1 (pos_user d radius x_offset)) theta_deg
    (c1 travel) /\
  derivable_pt_lim (fun d => c2 (pos_user d radius x_offset)) theta_deg
    (c2 travel).
Proof.
  cbv zeta. unfold pos_user, x_tool_user, v3scale; cbn [c0 c1 c2].
  split; [|split].
  - rewrite Rmult_0_l. apply derivable_pt_lim_const.
  - replace (- sin (deg2rad theta_deg) * (radius * (PI / 180)))
      with (radius * (PI / 180) * - sin (deg2rad theta_deg)) by ring.
    apply (derivable_pt_lim_radial cos), derivable_pt_lim_cos.
  - replace (cos (deg2rad theta_deg) * (radius * (PI / 180)))
      with (radius * (PI / 180) * cos (deg2rad theta_deg)) by ring.
    apply (derivable_pt_lim_radial sin), derivable_pt_lim_sin.
Qed.

(** ** What the scripts hand to the renderer *)

Lemma draw_arrow_app ax origin direction color lbl linewidth alpha :
  draw_arrow ax origin direction color lbl linewidth alpha =
  ax ++ draw_arrow [] origin direction color lbl linewidth alpha.
Proof. reflexivity. Qed.

Lemma plot_tool_frame_app ax theta_deg radius scale x_offset :
  plot_tool_frame ax theta_deg radius scale x_offset =
  ax ++ plot_tool_frame [] theta_deg radius scale x_offset.
Proof.
  unfold plot_tool_frame, draw_arrow. cbn [app].
  rewrite <- !app_assoc. reflexivity.
Qed.

(** X14.  [plot_tool_frame] leaves the artists already on the axes as they
    are and adds eight after them: the three axis arrows from the waypoint
    position, each followed by its label at 1.15 times the arrow, the
    marker at the position, and the angle label, which sits on the radius
    through the waypoint at distance [radius - 0.3 * scale] from the pipe
    axis. *)
Theorem plot_tool_frame_artists
    (ax : axes) (theta_deg radius scale x_offset : R) :
  let pos := pos_mpl theta_deg radius x_offset in
  let x_tool := x_tool_mpl theta_deg scale in
  let y_tool := y_tool_mpl scale in
  let z_tool := z_tool_mpl theta_deg scale in
  plot_tool_frame ax theta_deg radius scale x_offset =
  ax ++
  [ Arrow3D pos x_tool "red" (ToolAxis "X-tool" theta_deg) 2.5 0.9;
    Text (v3add pos (v3scale x_tool 1.15)) (ToolAxis "X-tool" theta_deg);
    Arrow3D pos y_tool "green" (ToolAxis "Y-tool" theta_deg) 2.5 0.9;
    Text (v3add pos (v3scale y_tool 1.15)) (ToolAxis "Y-tool" theta_deg);
    Arrow3D pos z_tool "blue" (ToolAxis "Z-tool" theta_deg) 2.5 0.9;
    Text (user_to_mpl (pos_user theta_deg (radius + 1.15 * scale) x_offset))
         (ToolAxis "Z-tool" theta_deg);
    Scatter pos;
    Text (user_to_mpl (pos_user theta_deg (radius - 0.3 * scale) x_offset))
         (ThetaEq theta_deg) ] /\
  length (plot_tool_frame ax theta_deg radius scale x_offset) =
    (length ax + 8)%nat.
Proof.
  cbv zeta. split.
  - rewrite plot_tool_frame_app. f_equal.
    unfold plot_tool_frame, draw_arrow. cbn [app].
    repeat f_equal;
      unfold pos_mpl, z_tool_mpl, user_to_mpl, pos_user, z_tool_user,
        v3add, v3sub, v3scale; cbn [c0 c1 c2]; f_equal; ring.
  - rewrite plot_tool_frame_app, length_app. reflexivity.
Qed.

Lemma fold_plot_tool_frame radius scale x_offset : forall thetas ax,
  fold_left (fun ax theta => plot_tool_frame ax theta radius scale x_offset)
    thetas ax =
  ax ++ flat_map (fun theta => plot_tool_frame [] theta radius scale x_offset)
          thetas.
Proof.
  induction thetas as [|theta thetas IH]; intros ax; cbn [fold_left flat_map].
  - rewrite app_nil_r. reflexivity.
  - rewrite IH, plot_tool_frame_app, <- app_assoc. reflexivity.
Qed.

(** X15.  The tool frames do not depend on one another: plotting a list of
    waypoints adds, for each one in turn, the eight artists it adds on
    empty axes, and plotting the waypoints in another order gives the same
    artists in another order. *)
Theorem tool_frames_any_order
    (radius scale x_offset : R) (thetas thetas' : list R) (ax : axes) :
  let plot := fun ax theta =>
    plot_tool_frame ax theta radius scale x_offset in
  Permutation thetas thetas' ->
  fold_left plot thetas ax =
    ax ++ flat_map (fun theta => plot [] theta) thetas /\
  length (fold_left plot thetas ax) = (length ax + 8 * length thetas)%nat /\
  Permutation (fold_left plot thetas ax) (fold_left plot thetas' ax).
Proof.
  cbv zeta. intros Hp. split; [apply fold_plot_tool_frame|]. split.
  - rewrite fold_plot_tool_frame, length_app. f_equal.
    clear Hp. induction thetas as [|t l IH]; [reflexivity|].
    cbn [flat_map length]. rewrite length_app, IH.
    rewrite (proj2 (plot_tool_frame_artists [] t radius scale x_offset)).
    simpl. lia.
  - rewrite !fold_plot_tool_frame. apply Permutation_app_head.
    apply Permutation_flat_map. exact Hp.
Qed.

Lemma tool_frames_any_order_witness :
  Permutation waypoints (rev waypoints) /\
  Permutation
    (fold_left (fun ax theta => plot_tool_frame ax theta 100 60 (-80))
       waypoints [])
    (fold_left (fun ax theta => plot_tool_frame ax theta 100 60 (-80))
       (rev waypoints) []).
Proof.
  assert (Hp : Permutation waypoints (rev waypoints))
    by apply Permutation_rev.
  split; [exact Hp|].
  exact (proj2 (proj2
    (tool_frames_any_order 100 60 (-80) waypoints (rev waypoints) [] Hp))).
Defined.

(** X16.  [main] hands forty artists to the renderer: the pipe surface
    first and the dashed circumference path last.  The path has 100
    samples, all in the plane of the tool frames (render x = 80, user x =
    -80) and on the circle of radius 100 about the pipe axis, and it is
    closed: its last sample is its first. *)
Theorem main_circumference_path :
  exists X Y Z middle xs ys zs,
    main = Surface X Y Z :: middle ++ [Line xs ys zs] /\
    length main = 40%nat /\
    length xs = 100%nat /\ length ys = 100%nat /\ length zs = 100%nat /\
    (forall i, (i < 100)%nat ->
       nth i xs 0 = 80 /\
       nth i ys 0 * nth i ys 0 + nth i zs 0 * nth i zs 0 = 100 * 100) /\
    nth 99 ys 0 = nth 0 ys 0 /\ nth 99 zs 0 = nth 0 zs 0.
Proof.
  unfold main.
  destruct (create_cylinder 100 250 30) as [[X Y] Z].
  rewrite fold_plot_tool_frame. unfold draw_arrow. cbn [app].
  set (ts := linspace 0 (2 * PI) 100).
  assert (Hts : length ts = 100%nat) by apply length_linspace.
  assert (Hnth : forall i, (i < 100)%nat ->
            nth i ts 0 = INR i * (2 * PI / 99)).
  { intros i Hi. unfold ts. rewrite nth_linspace by lia.
    replace (INR (100 - 1)) with 99 by (simpl; lra). field. }
  exists X, Y, Z.
  eexists (_ :: _ :: _ :: _ :: _ :: _ :: flat_map _ waypoints).
  do 3 eexists. split; [reflexivity|].
  split; [cbn [length]; rewrite length_app; reflexivity|].
  rewrite !length_map, Hts.
  split; [reflexivity|]. split; [reflexivity|]. split; [reflexivity|].
  split.
  - intros i Hi.
    rewrite (nth_map_entry Ropp) by (rewrite !length_map, Hts; exact Hi).
    rewrite (nth_map_entry (fun _ => -80))
      by (rewrite !length_map, Hts; exact Hi).
    rewrite !(nth_map_entry _ ts) by (rewrite Hts; exact Hi).
    split; [ring|].
    pose proof (sin2_cos2 (nth i ts 0)) as Hsc. unfold Rsqr in Hsc. nra.
  - rewrite !(nth_map_entry _ ts) by (rewrite Hts; lia).
    rewrite !Hnth by lia.
    replace (INR 99 * (2 * PI / 99)) with (2 * PI) by (simpl; field).
    replace (INR 0 * (2 * PI / 99)) with 0 by (simpl; ring).
    rewrite sin_0, cos_0, sin_2PI, cos_2PI. split; ring.
Qed.

(** ** Rows and the determinant *)

Lemma shape_swap n m (l1 : matrix) a b l2 :
  shape n m (l1 ++ a :: b :: l2) -> shape n m (l1 ++ b :: a :: l2).
Proof.
  intros [Hl HM].
  assert (Hp : Permutation (l1 ++ a :: b :: l2) (l1 ++ b :: a :: l2))
    by (apply Permutation_app_head, perm_swap).
  split.
  - rewrite <- Hl. symmetry. apply Permutation_length. exact Hp.
  - eapply Permutation_Forall; eauto.
Qed.

(** X17.  Interchanging two neighbouring rows of a square matrix negates
    its determinant. *)
Theorem det_row_interchange (n : nat) (l1 : matrix) (a b : vec) (l2 : matrix) :
  shape n n (l1 ++ a :: b :: l2) ->
  exists d,
    det (l1 ++ a :: b :: l2) = inr d /\
    det (l1 ++ b :: a :: l2) = inr (- d).
Proof.
  intros HM. exists (laplace n (l1 ++ a :: b :: l2)).
  pose proof (det_laplace n _ HM) as Hd.
  pose proof (det_laplace n _ (shape_swap n n l1 a b l2 HM)) as Hd'.
  pose proof (laplace_swap n l1 a b l2 (proj1 HM)) as Hs.
  split; [exact Hd|]. rewrite Hd'. f_equal. lra.
Qed.

Lemma det_row_interchange_witness :
  shape 3 3 ([] ++ [0; -1; 0] :: [-1; 0; 0] :: [[0; 0; 1]]) /\
  det [[-1; 0; 0]; [0; -1; 0]; [0; 0; 1]] = inr 1.
Proof.
  assert (HM : shape 3 3 ([] ++ [0; -1; 0] :: [-1; 0; 0] :: [[0; 0; 1]]))
    by shape_tac.
  split; [exact HM|].
  destruct (det_row_interchange 3 [] [0; -1; 0] [-1; 0; 0] [[0; 0; 1]] HM)
    as (d & Hd & Hd').
  change (det R_new = inr d) in Hd. rewrite det_R_new_value in Hd.
  injection Hd as <-. cbn [app] in Hd'. rewrite Hd'. f_equal. lra.
Defined.

Lemma nth_tl (v : vec) j : nth j (tl v) 0 = nth (S j) v 0.
Proof. destruct v; [destruct j|]; reflexivity. Qed.

Lemma nth_map_tl (M : matrix) i : nth i (map (@tl R) M) [] = tl (nth i M []).
Proof. apply (map_nth (@tl R) M [] i). Qed.

Lemma shape_minor n (r : vec) (rest : matrix) :
  shape (S n) (S n) (r :: rest) -> shape n n (map (@tl R) rest).
Proof.
  intros [Hl HM]. apply Forall_cons_iff in HM. destruct HM as [_ HM].
  split; [rewrite length_map; simpl in Hl; lia|].
  rewrite Forall_map. eapply Forall_impl; [|exact HM].
  intros x Hx. apply length_tl_S. exact Hx.
Qed.

Lemma upper_triangular_minor (r : vec) (rest : matrix) :
  upper_triangular (r :: rest) ->
  Forall (fun x => hd0 x = 0) rest /\ upper_triangular (map (@tl R) rest).
Proof.
  intros HU. split.
  - apply Forall_forall. intros x Hx.
    destruct (In_nth rest x [] Hx) as (i & Hi & <-).
    specialize (HU (S i) 0%nat ltac:(lia)). cbn [nth] in HU.
    unfold hd0. destruct (nth i rest []); [reflexivity|exact HU].
  - intros i j Hij. rewrite nth_map_tl, nth_tl.
    apply (HU (S i) (S j)). lia.
Qed.

Lemma diagonal_cons (r : vec) (rest : matrix) :
  diagonal (r :: rest) = hd0 r :: diagonal (map (@tl R) rest).
Proof.
  unfold diagonal. cbn [length seq map nth]. f_equal.
  - destruct r; reflexivity.
  - rewrite length_map, <- seq_shift, map_map. apply map_ext. intros i.
    rewrite nth_map_tl, nth_tl. reflexivity.
Qed.

Lemma laplace_upper_triangular n : forall M,
  shape n n M -> upper_triangular M -> laplace n M = product (diagonal M).
Proof.
  induction n as [|n IH]; intros M HM HU.
  - destruct M; [reflexivity|destruct HM; discriminate].
  - destruct M as [|r rest]; [destruct HM; discriminate|].
    destruct (upper_triangular_minor r rest HU) as [Hz HU'].
    cbn [laplace expand app]. rewrite expand_zero_heads by exact Hz.
    rewrite (IH _ (shape_minor n r rest HM) HU'), diagonal_cons.
    unfold product; cbn [fold_right]. ring.
Qed.

Lemma product_nonzero (l : vec) :
  product l <> 0 <-> Forall (fun x => x <> 0) l.
Proof.
  unfold product. induction l as [|x l IHl]; cbn [fold_right].
  - split; [constructor|lra].
  - rewrite Forall_cons_iff, <- IHl. split.
    + intros H. split; intros E; apply H; rewrite E; ring.
    + intros [Hx Hl]. apply Rmult_integral_contrapositive_currified; auto.
Qed.

(** X18.  The determinant of a square matrix with zeros below the diagonal
    is the product of its diagonal; [inv] returns on it exactly when no
    diagonal entry is zero. *)
Theorem det_upper_triangular (n : nat) (M : matrix) :
  shape n n M -> upper_triangular M ->
  det M = inr (product (diagonal M)) /\
  ((exists X, inv M = inr X) <-> Forall (fun x => x <> 0) (diagonal M)).
Proof.
  intros HM HU.
  assert (Hd : det M = inr (product (diagonal M))).
  { rewrite (det_laplace n M HM), (laplace_upper_triangular n M HM HU).
    reflexivity. }
  split; [exact Hd|].
  rewrite <- product_nonzero. split.
  - intros [X HX] Hz.
    assert (Hs : inv M = inl SingularMatrix)
      by (apply inv_singular_iff; rewrite Hd, Hz; reflexivity).
    congruence.
  - intros Hnz. apply (inv_total n M HM). rewrite Hd. intros [= E]. auto.
Qed.

Lemma upper_triangular_H2 : upper_triangular H2.
Proof.
  intros i j Hij. unfold H2.
  destruct i as [|[|[|[|i]]]]; destruct j as [|[|[|[|j]]]]; try lia;
    try reflexivity; destruct i; reflexivity.
Qed.

Lemma det_upper_triangular_witness :
  shape 4 4 H2 /\ upper_triangular H2 /\
  det H2 = inr (product [1; -1; -1; 1]).
Proof.
  assert (HM : shape 4 4 H2) by shape_tac.
  split; [exact HM|]. split; [exact upper_triangular_H2|].
  exact (proj1 (det_upper_triangular 4 H2 HM upper_triangular_H2)).
Defined.
